(** * hugo-manager: the process supervisor and log broadcaster

    A shallow embedding of [internal/hugo/manager.go]: the [Manager] that
    starts, stops and restarts the Hugo server process, keeps a bounded
    buffer of recent log entries and fans every entry out to the
    subscribed channels.

    Go values that are shared by reference are kept in explicit stores:
    the backing arrays of [[]LogEntry] slices and the buffered channels
    handed out by [Subscribe].  Every method of the manager is a command
    of a small state-and-panic monad over that world; what the operating
    system answers to a call ([cmd.Start], [Process.Kill], [cmd.Wait]) is
    an argument of the command.  The methods and the bodies of the
    goroutines are modelled one call at a time (the mutexes of the source
    make the guarded sections atomic; interleavings of whole calls are
    obtained by sequencing commands).  The clock of the world moves only
    between calls and in [time.Sleep]. *)

From Stdlib Require Import ZArith String Ascii List Lia DecimalString.
From stdpp Require Import base list strings gmap.

Open Scope Z_scope.

(* ===================================================================== *)
(** * Strings as Go sees them *)
(* ===================================================================== *)

(** A Go [string] is a sequence of bytes; [String.string] is a sequence of
    8-bit characters.  [len] returns a Go [int]. *)
Definition len (s : string) : Z := Z.of_nat (String.length s).

(** [s[i:j]] for [0 <= i <= j <= len(s)], the only way the source uses
    it. *)
Definition str_slice (s : string) (i j : Z) : string :=
  String.substring (Z.to_nat i) (Z.to_nat (j - i)) s.

(** [fmt.Sprintf("%d", n)] *)
Definition Sprintf_d (n : Z) : string :=
  NilZero.string_of_int (Z.to_int n).

(** The body of the [for] loop of [containsAt], for the iterations that
    are left: [i] is the loop variable and [rem] counts the iterations
    for which [i <= len(s)-len(substr)] still holds. *)
Fixpoint containsAt_loop (rem : nat) (i : Z) (s substr : string) : bool :=
  match rem with
  | O => false
  | S rem' =>
      if String.eqb (str_slice s i (i + len substr)) substr then true
      else containsAt_loop rem' (i + 1) s substr
  end.

(** [func containsAt(s, substr string) bool]: [i] runs from [0] while
    [i <= len(s)-len(substr)], that is [len(s)-len(substr)+1] times when
    that number is positive and not at all otherwise. *)
Definition containsAt (s substr : string) : bool :=
  containsAt_loop (Z.to_nat (len s - len substr + 1)) 0 s substr.

(** [func contains(s, substr string) bool] *)
Definition contains (s substr : string) : bool :=
  (len s >=? len substr) &&
  (String.eqb s substr || ((len s >? 0) && containsAt s substr)).

(** The standard containment predicate, as the claim words it: [substr]
    occurs as a contiguous run of [s]. *)
Definition is_substring (substr s : string) : Prop :=
  exists pre post : string, s = pre +:+ substr +:+ post.

(* ===================================================================== *)
(** * Data model *)
(* ===================================================================== *)

(** [type Status string] with its four constants. *)
Inductive Status : Type :=
| StatusStopped
| StatusStarting
| StatusRunning
| StatusError.

Definition Status_string (s : Status) : string :=
  match s with
  | StatusStopped => "stopped"
  | StatusStarting => "starting"
  | StatusRunning => "running"
  | StatusError => "error"
  end.

#[global] Instance Status_eq_dec : EqDecision Status.
Proof. solve_decision. Defined.

(** [config.HugoConfig] *)
Record HugoConfig : Type := {
  Port : Z;
  AutoStart : bool;
  AdditionalArgs : list string;
  DisableFastRender : bool
}.

(** [LogEntry]; [Time] is a point on the clock of the world, in
    nanoseconds.  The field [Type] of the source is [Type_] here. *)
Record LogEntry : Type := {
  Time : Z;
  Message : string;
  Type_ : string
}.

(** The zero value of [LogEntry], which fills freshly made arrays. *)
Definition zeroEntry : LogEntry :=
  {| Time := 0; Message := ""; Type_ := "" |}.

(** The fields of [exec.Cmd] the manager touches.  [Process] is the
    operating-system process id once the command has been started. *)
Record Cmd : Type := {
  Path : string;
  Args : list string;
  Dir : string;
  Process : option nat
}.

(** [exec.Command(name, arg...)]: [Args] holds the command name followed
    by the arguments. *)
Definition exec_Command (name : string) (arg : list string) : Cmd :=
  {| Path := name; Args := name :: arg; Dir := ""; Process := None |}.

Definition Cmd_set_Dir (d : string) (c : Cmd) : Cmd :=
  {| Path := Path c; Args := Args c; Dir := d; Process := Process c |}.

Definition Cmd_set_Process (p : option nat) (c : Cmd) : Cmd :=
  {| Path := Path c; Args := Args c; Dir := Dir c; Process := p |}.

(** A slice header: a reference to a backing array in the store, the
    offset of the first element, the length and the capacity. *)
Record Slice : Type := {
  s_arr : nat;
  s_off : nat;
  s_len : nat;
  s_cap : nat
}.

(** A buffered [chan LogEntry]: the queued entries (oldest first), the
    capacity given to [make] and whether [close] has been called. *)
Record Chan : Type := {
  ch_buf : list LogEntry;
  ch_cap : nat;
  ch_closed : bool
}.

Definition Chan_set_buf (b : list LogEntry) (c : Chan) : Chan :=
  {| ch_buf := b; ch_cap := ch_cap c; ch_closed := ch_closed c |}.

Definition Chan_set_closed (b : bool) (c : Chan) : Chan :=
  {| ch_buf := ch_buf c; ch_cap := ch_cap c; ch_closed := b |}.

(** The two output pipes of the child process. *)
Inductive Pipe : Type := Stdout | Stderr.

(** The goroutines [Start] launches with [go]. *)
Inductive Goroutine : Type :=
| GoStreamLogs (reader : Pipe) (logType : string)
| GoWait
| GoGraceTimer.

(** What the manager asks of the operating system. *)
Inductive OSEvent : Type :=
| EvStart (c : Cmd)
| EvKill (pid : nat)
| EvSleep (d : Z).

(** [type Manager struct]; the three mutexes are not state.  [logs] is a
    slice header into the store of arrays, since [GetLogs] hands out
    copies of it; a [chan LogEntry] is a reference into the channel
    store, and [subscribers] is kept as the list of the references it
    holds. *)
Record Manager : Type := {
  projectDir : string;
  config : HugoConfig;
  cmd : option Cmd;
  status : Status;
  statusMsg : string;
  logs : Slice;
  subscribers : list nat;
  maxLogs : Z
}.

Definition Manager_set_cmd (c : option Cmd) (m : Manager) : Manager :=
  {| projectDir := projectDir m; config := config m; cmd := c;
     status := status m; statusMsg := statusMsg m; logs := logs m;
     subscribers := subscribers m; maxLogs := maxLogs m |}.

Definition Manager_set_status (st : Status) (msg : string) (m : Manager)
  : Manager :=
  {| projectDir := projectDir m; config := config m; cmd := cmd m;
     status := st; statusMsg := msg; logs := logs m;
     subscribers := subscribers m; maxLogs := maxLogs m |}.

Definition Manager_set_logs (l : Slice) (m : Manager) : Manager :=
  {| projectDir := projectDir m; config := config m; cmd := cmd m;
     status := status m; statusMsg := statusMsg m; logs := l;
     subscribers := subscribers m; maxLogs := maxLogs m |}.

Definition Manager_set_subscribers (l : list nat) (m : Manager) : Manager :=
  {| projectDir := projectDir m; config := config m; cmd := cmd m;
     status := status m; statusMsg := statusMsg m; logs := logs m;
     subscribers := l; maxLogs := maxLogs m |}.

(** The world a call runs in: the manager, the store of backing arrays,
    the store of channels, the goroutines launched so far, the requests
    made to the operating system and the clock. *)
Record World : Type := {
  mgr : Manager;
  arrays : list (list LogEntry);
  chans : list Chan;
  goroutines : list Goroutine;
  os_trace : list OSEvent;
  now : Z
}.

Definition with_mgr (f : Manager -> Manager) (w : World) : World :=
  {| mgr := f (mgr w); arrays := arrays w; chans := chans w;
     goroutines := goroutines w; os_trace := os_trace w; now := now w |}.

Definition with_arrays (f : list (list LogEntry) -> list (list LogEntry))
  (w : World) : World :=
  {| mgr := mgr w; arrays := f (arrays w); chans := chans w;
     goroutines := goroutines w; os_trace := os_trace w; now := now w |}.

Definition with_chans (f : list Chan -> list Chan) (w : World) : World :=
  {| mgr := mgr w; arrays := arrays w; chans := f (chans w);
     goroutines := goroutines w; os_trace := os_trace w; now := now w |}.

Definition with_goroutines (f : list Goroutine -> list Goroutine)
  (w : World) : World :=
  {| mgr := mgr w; arrays := arrays w; chans := chans w;
     goroutines := f (goroutines w); os_trace := os_trace w; now := now w |}.

Definition with_os_trace (f : list OSEvent -> list OSEvent) (w : World)
  : World :=
  {| mgr := mgr w; arrays := arrays w; chans := chans w;
     goroutines := goroutines w; os_trace := f (os_trace w); now := now w |}.

Definition with_now (f : Z -> Z) (w : World) : World :=
  {| mgr := mgr w; arrays := arrays w; chans := chans w;
     goroutines := goroutines w; os_trace := os_trace w; now := f (now w) |}.

(* ===================================================================== *)
(** * Commands *)
(* ===================================================================== *)

(** A call either returns a value and a new world, or panics. *)
Inductive Result (A : Type) : Type :=
| Ok (a : A) (w : World)
| Panic.

Arguments Ok {A} a w.
Arguments Panic {A}.

Definition M (A : Type) : Type := World -> Result A.

Definition ret {A : Type} (a : A) : M A := fun w => Ok a w.

Definition bind {A B : Type} (c : M A) (k : A -> M B) : M B :=
  fun w => match c w with
           | Ok a w' => k a w'
           | Panic => Panic
           end.

Definition panic {A : Type} : M A := fun _ => Panic.

Definition gets {A : Type} (f : World -> A) : M A := fun w => Ok (f w) w.

Definition modify (f : World -> World) : M unit := fun w => Ok tt (f w).

Declare Scope go_scope.
Delimit Scope go_scope with go.
Notation "x ← y ; z" := (bind y (fun x => z))
  (at level 20, y at level 100, z at level 200, only parsing) : go_scope.
Notation "x ;; z" := (bind x (fun _ => z))
  (at level 100, z at level 200, only parsing, right associativity)
  : go_scope.
Open Scope go_scope.

(** [for _, x := range l { body }] *)
Fixpoint for_range {A : Type} (l : list A) (body : A -> M unit) : M unit :=
  match l with
  | [] => ret tt
  | x :: l' => body x;; for_range l' body
  end.

(** ** The clock, the operating system and [go] *)

Definition Second : Z := 1000000000.
Definition Millisecond : Z := 1000000.

Definition time_Now : M Z := gets now.

Definition time_Sleep (d : Z) : M unit :=
  modify (fun w => with_now (fun t => t + d)
                     (with_os_trace (fun tr => tr ++ [EvSleep d]) w)).

(** The clock reaching [t], between two calls. *)
Definition clock_at (t : Z) : M unit := modify (with_now (fun _ => t)).

Definition os_request (e : OSEvent) : M unit :=
  modify (with_os_trace (fun tr => tr ++ [e])).

(** [go f()] *)
Definition go (g : Goroutine) : M unit :=
  modify (with_goroutines (fun gs => gs ++ [g])).

(** ** Slices of log entries *)

Definition read_array (i : nat) : M (list LogEntry) :=
  fun w => match arrays w !! i with
           | Some a => Ok a w
           | None => Panic
           end.

Definition write_array (i : nat) (a : list LogEntry) : M unit :=
  modify (with_arrays (fun arrs => <[i := a]> arrs)).

Definition alloc_array (a : list LogEntry) : M nat :=
  fun w => Ok (length (arrays w)) (with_arrays (fun arrs => arrs ++ [a]) w).

(** The elements [s[0], ..., s[len(s)-1]] of a slice. *)
Definition slice_elems (s : Slice) : M (list LogEntry) :=
  a ← read_array (s_arr s);
  if (length a <? s_off s + s_len s)%nat then panic
  else ret (take (s_len s) (drop (s_off s) a)).

(** [make([]LogEntry, n, c)] *)
Definition make (n c : Z) : M Slice :=
  if (n <? 0) || (c <? n) then panic
  else
    i ← alloc_array (replicate (Z.to_nat c) zeroEntry);
    ret {| s_arr := i; s_off := 0%nat; s_len := Z.to_nat n;
           s_cap := Z.to_nat c |}.

(** [s[lo:]] *)
Definition reslice_from (s : Slice) (lo : Z) : M Slice :=
  if (lo <? 0) || (Z.of_nat (s_len s) <? lo) then panic
  else ret {| s_arr := s_arr s;
              s_off := (s_off s + Z.to_nat lo)%nat;
              s_len := (s_len s - Z.to_nat lo)%nat;
              s_cap := (s_cap s - Z.to_nat lo)%nat |}.

(** [copy(dst, src)]: the number of elements copied is the smaller of the
    two lengths; the source is read before the destination is written,
    so overlapping slices are handled as [memmove] does. *)
Definition copy (dst src : Slice) : M nat :=
  let n := Nat.min (s_len dst) (s_len src) in
  elems ← slice_elems src;
  a ← read_array (s_arr dst);
  if (length a <? s_off dst + n)%nat then panic
  else
    write_array (s_arr dst)
      (take (s_off dst) a ++ take n elems ++ drop (s_off dst + n) a);;
    ret n.

(** ** Channels *)

Definition read_chan (ch : nat) : M Chan :=
  fun w => match chans w !! ch with
           | Some c => Ok c w
           | None => Panic
           end.

Definition write_chan (ch : nat) (c : Chan) : M unit :=
  modify (with_chans (fun cs => <[ch := c]> cs)).

(** [make(chan LogEntry, n)] *)
Definition make_chan (n : nat) : M nat :=
  fun w => Ok (length (chans w))
              (with_chans (fun cs => cs ++ [{| ch_buf := [];
                                               ch_cap := n;
                                               ch_closed := false |}]) w).

(** What a non-blocking send does to a channel: the entry is queued when
    there is room and the channel is left as it is otherwise. *)
Definition offer (e : LogEntry) (c : Chan) : Chan :=
  if (length (ch_buf c) <? ch_cap c)%nat
  then Chan_set_buf (ch_buf c ++ [e]) c
  else c.

(** [select { case ch <- e: default: }]; a send on a closed channel
    panics. *)
Definition select_send (ch : nat) (e : LogEntry) : M unit :=
  c ← read_chan ch;
  if ch_closed c then panic
  else write_chan ch (offer e c).

(** [close(ch)]; closing a closed channel panics. *)
Definition close (ch : nat) : M unit :=
  c ← read_chan ch;
  if ch_closed c then panic
  else write_chan ch (Chan_set_closed true c).

(** A consumer taking the oldest queued entry, if there is one. *)
Definition try_receive (ch : nat) : M (option LogEntry) :=
  c ← read_chan ch;
  match ch_buf c with
  | [] => ret None
  | e :: b => write_chan ch (Chan_set_buf b c);; ret (Some e)
  end.

(** ** The manager *)

(** [func NewManager(projectDir string, cfg config.HugoConfig) *Manager],
    in a world that holds nothing else: the backing array of
    [make([]LogEntry, 0, 1000)] is the only array of the store. *)
Definition NewManager (dir : string) (cfg : HugoConfig) : World :=
  {| mgr := {| projectDir := dir;
               config := cfg;
               cmd := None;
               status := StatusStopped;
               statusMsg := "";
               logs := {| s_arr := 0; s_off := 0; s_len := 0;
                          s_cap := 1000 |};
               subscribers := [];
               maxLogs := 1000 |};
     arrays := [replicate 1000 zeroEntry];
     chans := [];
     goroutines := [];
     os_trace := [];
     now := 0 |}.

(** [func (m *Manager) setStatus(status Status, msg string)] *)
Definition setStatus (st : Status) (msg : string) : M unit :=
  modify (with_mgr (Manager_set_status st msg)).

(** [func (m *Manager) GetStatus() (Status, string)] *)
Definition GetStatus : M (Status * string) :=
  gets (fun w => (status (mgr w), statusMsg (mgr w))).

(** [func (m *Manager) GetPort() int] *)
Definition GetPort : M Z := gets (fun w => Port (config (mgr w))).

(** [func (m *Manager) Subscribe() chan LogEntry] *)
Definition Subscribe : M nat :=
  ch ← make_chan 100;
  modify (with_mgr (fun m =>
            Manager_set_subscribers (subscribers m ++ [ch]) m));;
  ret ch.

(** The loop of [Unsubscribe]: the subscribers without the first one that
    equals [ch], or [None] when no subscriber does. *)
Fixpoint remove_first (ch : nat) (subs : list nat) : option (list nat) :=
  match subs with
  | [] => None
  | sub :: rest =>
      if bool_decide (sub = ch) then Some rest
      else match remove_first ch rest with
           | Some rest' => Some (sub :: rest')
           | None => None
           end
  end.

(** [func (m *Manager) Unsubscribe(ch chan LogEntry)] *)
Definition Unsubscribe (ch : nat) : M unit :=
  subs ← gets (fun w => subscribers (mgr w));
  match remove_first ch subs with
  | Some subs' =>
      modify (with_mgr (Manager_set_subscribers subs'));;
      close ch
  | None => ret tt
  end.

(** [func (m *Manager) GetLogs(limit int) []LogEntry]; the result is a
    slice header, its elements live in the store of the world. *)
Definition GetLogs (limit : Z) : M Slice :=
  l ← gets (fun w => logs (mgr w));
  let n := Z.of_nat (s_len l) in
  let limit := if (limit <=? 0) || (limit >? n) then n else limit in
  let start := n - limit in
  let start := if start <? 0 then 0 else start in
  result ← make limit limit;
  src ← reslice_from l start;
  copy result src;;
  ret result.

(** What is stored under a slice header, when the header fits its array. *)
Definition slice_view (arrs : list (list LogEntry)) (s : Slice)
  : option (list LogEntry) :=
  match arrs !! s_arr s with
  | Some a =>
      if (length a <? s_off s + s_len s)%nat then None
      else Some (take (s_len s) (drop (s_off s) a))
  | None => None
  end.

(** The log buffer of the manager, oldest entry first. *)
Definition log_view (w : World) : option (list LogEntry) :=
  slice_view (arrays w) (logs (mgr w)).

(** The last [n] elements of a list. *)
Definition keep_last {A : Type} (n : nat) (l : list A) : list A :=
  drop (length l - n) l.

Section Supervisor.

(** The Go runtime decides how much room a slice gets when [append] has
    to move it: [growslice_spare c n] is the number of unused slots left
    after the [n] elements, for a slice of capacity [c]. *)
Variable growslice_spare : nat -> nat -> nat.

(** [append(s, e)] *)
Definition append (s : Slice) (e : LogEntry) : M Slice :=
  if (s_len s <? s_cap s)%nat then
    a ← read_array (s_arr s);
    if (length a <=? s_off s + s_len s)%nat then panic
    else
      write_array (s_arr s) (<[(s_off s + s_len s)%nat := e]> a);;
      ret {| s_arr := s_arr s; s_off := s_off s;
             s_len := S (s_len s); s_cap := s_cap s |}
  else
    elems ← slice_elems s;
    let spare := growslice_spare (s_cap s) (S (s_len s)) in
    i ← alloc_array (elems ++ [e] ++ replicate spare zeroEntry);
    ret {| s_arr := i; s_off := 0%nat;
           s_len := S (s_len s); s_cap := (S (s_len s) + spare)%nat |}.

(** [func (m *Manager) addLog(message, logType string)] *)
Definition addLog (message logType : string) : M unit :=
  t ← time_Now;
  let entry := {| Time := t; Message := message; Type_ := logType |} in
  l ← gets (fun w => logs (mgr w));
  l ← append l entry;
  modify (with_mgr (Manager_set_logs l));;
  n ← gets (fun w => maxLogs (mgr w));
  (if Z.of_nat (s_len l) >? n then
     l' ← reslice_from l (Z.of_nat (s_len l) - n);
     modify (with_mgr (Manager_set_logs l'))
   else ret tt);;
  subs ← gets (fun w => subscribers (mgr w));
  for_range subs (fun ch => select_send ch entry).

(** How [exec.Cmd] answers [StdoutPipe], [StderrPipe] and [Start]: the
    first failure with its message, or the process id. *)
Inductive SpawnOutcome : Type :=
| StdoutPipeFails (err : string)
| StderrPipeFails (err : string)
| StartFails (err : string)
| Started (pid : nat).

(** [func (m *Manager) Start() error]; the result is the message of the
    error, [None] for [nil]. *)
Definition Start (os : SpawnOutcome) : M (option string) :=
  st ← gets (fun w => status (mgr w));
  if bool_decide (st = StatusRunning) || bool_decide (st = StatusStarting)
  then ret (Some "Hugo is already running"%string)
  else
    setStatus StatusStarting "Starting Hugo server...";;
    addLog "Starting Hugo server..." "system";;
    cfg ← gets (fun w => config (mgr w));
    let args := ["server"%string] in
    let args := args ++ ["--port"%string; Sprintf_d (Port cfg)] in
    let args := if DisableFastRender cfg
                then args ++ ["--disableFastRender"%string]
                else args in
    let args := args ++ AdditionalArgs cfg in
    dir ← gets (fun w => projectDir (mgr w));
    let c := Cmd_set_Dir dir (exec_Command "hugo" args) in
    modify (with_mgr (Manager_set_cmd (Some c)));;
    match os with
    | StdoutPipeFails err =>
        setStatus StatusError ("Failed to get stdout: " +:+ err);;
        ret (Some err)
    | StderrPipeFails err =>
        setStatus StatusError ("Failed to get stderr: " +:+ err);;
        ret (Some err)
    | StartFails err =>
        os_request (EvStart c);;
        setStatus StatusError ("Failed to start Hugo: " +:+ err);;
        ret (Some err)
    | Started pid =>
        os_request (EvStart c);;
        modify (with_mgr (Manager_set_cmd
                            (Some (Cmd_set_Process (Some pid) c))));;
        go (GoStreamLogs Stdout "stdout");;
        go (GoStreamLogs Stderr "stderr");;
        go GoWait;;
        go GoGraceTimer;;
        ret None
    end.

(** The goroutine of [Start] that waits for the process: [exit] is what
    [m.cmd.Wait()] returns. *)
Definition Start_wait (exit : option string) : M unit :=
  match exit with
  | Some err =>
      addLog ("Hugo exited with error: " +:+ err) "system";;
      setStatus StatusError err
  | None =>
      addLog "Hugo server stopped" "system";;
      setStatus StatusStopped ""
  end.

(** The goroutine of [Start] that sleeps two seconds and then promotes
    the status. *)
Definition Start_graceTimer : M unit :=
  time_Sleep (2 * Second);;
  st ← gets (fun w => status (mgr w));
  if bool_decide (st = StatusStarting) then
    port ← gets (fun w => Port (config (mgr w)));
    modify (with_mgr (Manager_set_status StatusRunning
                        ("Running on port " +:+ Sprintf_d port)))
  else ret tt.

(** One round of the loop of [streamLogs], for a line the scanner has
    read. *)
Definition streamLogs_line (line logType : string) : M unit :=
  addLog line logType;;
  if String.eqb logType "stdout" &&
     (contains line "Web Server is available" ||
      contains line "Serving pages from")
  then
    port ← gets (fun w => Port (config (mgr w)));
    setStatus StatusRunning ("Running on port " +:+ Sprintf_d port)
  else ret tt.

(** [func (m *Manager) streamLogs(reader io.Reader, logType string)], for
    the lines the reader delivers before it is closed. *)
Definition streamLogs (lines : list string) (logType : string) : M unit :=
  for_range lines (fun line => streamLogs_line line logType).

(** [func (m *Manager) Stop() error]; [kill] is what
    [m.cmd.Process.Kill()] returns when it is called. *)
Definition Stop (kill : option string) : M (option string) :=
  st ← gets (fun w => status (mgr w));
  if bool_decide (st = StatusStopped)
  then ret (Some "Hugo is not running"%string)
  else
    addLog "Stopping Hugo server..." "system";;
    c ← gets (fun w => cmd (mgr w));
    failed ← match c with
             | Some {| Process := Some pid |} =>
                 os_request (EvKill pid);;
                 match kill with
                 | Some err =>
                     addLog ("Error stopping Hugo: " +:+ err) "system";;
                     ret (Some err)
                 | None => ret None
                 end
             | _ => ret None
             end;
    match failed with
    | Some err => ret (Some err)
    | None => setStatus StatusStopped "";; ret None
    end.

(** [func (m *Manager) Restart() error] *)
Definition Restart (kill : option string) (os : SpawnOutcome)
  : M (option string) :=
  addLog "Restarting Hugo server..." "system";;
  st ← gets (fun w => status (mgr w));
  failed ← (if negb (bool_decide (st = StatusStopped)) then
              err ← Stop kill;
              match err with
              | Some e => ret (Some e)
              | None => time_Sleep (500 * Millisecond);; ret None
              end
            else ret None);
  match failed with
  | Some e => ret (Some e)
  | None => Start os
  end.

(** A run of log appends: each entry of the list stands for a call of
    [addLog] with its message and type, made when the clock shows its
    time. *)
Definition appends (es : list LogEntry) : M unit :=
  for_range es (fun e => clock_at (Time e);; addLog (Message e) (Type_ e)).

(** ** Well-formed worlds *)

(** A slice header fits the store: its array exists and holds the whole
    capacity of the slice. *)
Definition slice_ok (arrs : list (list LogEntry)) (s : Slice) : Prop :=
  exists a, arrs !! s_arr s = Some a /\
            (s_off s + s_cap s <= length a)%nat /\
            (s_len s <= s_cap s)%nat.

(** Every subscriber is a channel of the store that has not been closed. *)
Definition subscribers_open (w : World) : Prop :=
  forall ch, ch ∈ subscribers (mgr w) ->
             exists c, chans w !! ch = Some c /\ ch_closed c = false.

(** The worlds the methods of the manager keep to. *)
Record well_formed (w : World) : Prop := {
  wf_logs : slice_ok (arrays w) (logs (mgr w));
  wf_maxLogs : 0 <= maxLogs (mgr w);
  wf_open : subscribers_open w;
  wf_nodup : NoDup (subscribers (mgr w))
}.

(** ** Specifications of commands *)

(** [runs c w Q]: from [w], the command [c] returns (it does not panic)
    and the value and world it returns satisfy [Q]. *)
Definition runs {A : Type} (c : M A) (w : World) (Q : A -> World -> Prop)
  : Prop :=
  exists a w', c w = Ok a w' /\ Q a w'.

(** The store [arrs'] extends [arrs] and agrees with it on every array
    but the one at [k]. *)
Definition arrays_frame (k : nat) (arrs arrs' : list (list LogEntry))
  : Prop :=
  (length arrs <= length arrs')%nat /\
  forall i, i <> k -> (i < length arrs)%nat -> arrs' !! i = arrs !! i.

(** The channel store after [e] was offered to each channel of [subs] in
    turn. *)
Fixpoint broadcast (e : LogEntry) (subs : list nat) (cs : list Chan)
  : list Chan :=
  match subs with
  | [] => cs
  | ch :: subs' =>
      broadcast e subs'
        (match cs !! ch with
         | Some c => <[ch := offer e c]> cs
         | None => cs
         end)
  end.

(** The entry [addLog message logType] builds when it is called in [w]. *)
Definition entry_at (w : World) (message logType : string) : LogEntry :=
  {| Time := now w; Message := message; Type_ := logType |}.

(** What one call of [addLog] that builds the entry [e] makes of the
    world [w]: the buffer holds the last [maxLogs] entries of the old
    ones followed by [e], every subscriber was offered [e], and nothing
    else moved; arrays other than the one of the buffer are as they
    were. *)
Record logged (e : LogEntry) (w w' : World) : Prop := {
  logged_wf : well_formed w';
  logged_view :
    forall v, log_view w = Some v ->
              log_view w'
                = Some (keep_last (Z.to_nat (maxLogs (mgr w))) (v ++ [e]));
  logged_chans :
    chans w' = broadcast e (subscribers (mgr w)) (chans w);
  logged_mgr : mgr w' = Manager_set_logs (logs (mgr w')) (mgr w);
  logged_goroutines : goroutines w' = goroutines w;
  logged_os_trace : os_trace w' = os_trace w;
  logged_now : now w' = now w;
  logged_frame :
    arrays_frame (s_arr (logs (mgr w))) (arrays w) (arrays w');
  logged_arr :
    s_arr (logs (mgr w')) = s_arr (logs (mgr w)) \/
    s_arr (logs (mgr w')) = length (arrays w)
}.

(** What [GetLogs limit] is to return from a buffer holding [v], as the
    claim words it: the most recent [limit] entries when
    [0 < limit <= len(v)], and all of [v] otherwise, oldest first. *)
Definition recent (limit : Z) (v : list LogEntry) : list LogEntry :=
  if (0 <? limit) && (limit <=? Z.of_nat (length v))
  then keep_last (Z.to_nat limit) v
  else v.

(** The buffer of a well-formed world holds no more than [maxLogs]
    entries. *)
Definition bounded (w : World) : Prop :=
  well_formed w /\ Z.of_nat (s_len (logs (mgr w))) <= maxLogs (mgr w).

(** From [w] to [w'] the bound is kept and the capacity is the same. *)
Definition steady (w w' : World) : Prop :=
  bounded w' /\ maxLogs (mgr w') = maxLogs (mgr w).

(** ** What the claims speak of *)

(** The argument list as the specification words it: the subcommand
    [server], then [--port] and the configured port, then
    [--disableFastRender] when the flag is set, then the additional
    arguments in the order given. *)
Definition hugo_args (cfg : HugoConfig) : list string :=
  ["server"%string; "--port"%string; Sprintf_d (Port cfg)]
  ++ (if DisableFastRender cfg then ["--disableFastRender"%string] else [])
  ++ AdditionalArgs cfg.

(** The command [Start] builds for the manager [m]. *)
Definition hugo_cmd (m : Manager) : Cmd :=
  {| Path := "hugo"; Args := "hugo"%string :: hugo_args (config m);
     Dir := projectDir m; Process := None |}.

(** For an answer of the operating system that is a failure: the text
    [Start] puts before the message, and the message. *)
Definition failure_of (os : SpawnOutcome) : option (string * string) :=
  match os with
  | StdoutPipeFails err => Some ("Failed to get stdout: "%string, err)
  | StderrPipeFails err => Some ("Failed to get stderr: "%string, err)
  | StartFails err => Some ("Failed to start Hugo: "%string, err)
  | Started _ => None
  end.

(** Whether [cmd.Start()] was reached, that is whether the operating
    system was asked to launch the process. *)
Definition asks_launch (os : SpawnOutcome) : bool :=
  match os with
  | StartFails _ | Started _ => true
  | StdoutPipeFails _ | StderrPipeFails _ => false
  end.

(** The two readers, the exit waiter and the grace timer. *)
Definition background_loops : list Goroutine :=
  [GoStreamLogs Stdout "stdout"; GoStreamLogs Stderr "stderr"; GoWait;
   GoGraceTimer].

(** The process [Stop] is to kill: [m.cmd.Process] when neither [m.cmd]
    nor [m.cmd.Process] is [nil]. *)
Definition kill_target (m : Manager) : option nat :=
  match cmd m with
  | Some c => Process c
  | None => None
  end.

(** [Restart] as the claim words it: when the status is not [stopped] it
    calls [Stop], then waits and calls [Start] whatever [Stop] returned,
    and reports the first failure of the two. *)
Definition Restart_as_claimed (kill : option string) (os : SpawnOutcome)
  : M (option string) :=
  addLog "Restarting Hugo server..." "system";;
  st ← gets (fun w => status (mgr w));
  if negb (bool_decide (st = StatusStopped)) then
    e1 ← Stop kill;
    time_Sleep (500 * Millisecond);;
    e2 ← Start os;
    ret (match e1 with
         | Some e => Some e
         | None => e2
         end)
  else Start os.

(** ** Everything that can happen to a manager *)

(** The calls of the public methods, with what the operating system
    answers, and the steps of the goroutines [Start] launches: the timer
    firing, the process ending with [exit], the scanner of a pipe
    delivering a line, the clock moving on. *)
Inductive Call : Type :=
| CallStart (os : SpawnOutcome)
| CallStop (kill : option string)
| CallRestart (kill : option string) (os : SpawnOutcome)
| CallGetStatus
| CallGetLogs (limit : Z)
| CallSubscribe
| CallUnsubscribe (ch : nat)
| StepGraceTimer
| StepWait (exit : option string)
| StepStreamLogs (line logType : string)
| StepClock (t : Z).

Definition run_call (c : Call) : M unit :=
  match c with
  | CallStart os => _ ← Start os; ret tt
  | CallStop kill => _ ← Stop kill; ret tt
  | CallRestart kill os => _ ← Restart kill os; ret tt
  | CallGetStatus => _ ← GetStatus; ret tt
  | CallGetLogs limit => _ ← GetLogs limit; ret tt
  | CallSubscribe => _ ← Subscribe; ret tt
  | CallUnsubscribe ch => Unsubscribe ch
  | StepGraceTimer => Start_graceTimer
  | StepWait exit => Start_wait exit
  | StepStreamLogs line logType => streamLogs_line line logType
  | StepClock t => clock_at t
  end.

(** ** Checking that a world is well formed *)

Definition slice_okb (arrs : list (list LogEntry)) (s : Slice) : bool :=
  match arrs !! s_arr s with
  | Some a => (s_off s + s_cap s <=? length a)%nat
              && (s_len s <=? s_cap s)%nat
  | None => false
  end.

Definition openb (cs : list Chan) (ch : nat) : bool :=
  match cs !! ch with
  | Some c => negb (ch_closed c)
  | None => false
  end.

Fixpoint nodupb (l : list nat) : bool :=
  match l with
  | [] => true
  | x :: l' => negb (existsb (Nat.eqb x) l') && nodupb l'
  end.

Definition wfb (w : World) : bool :=
  slice_okb (arrays w) (logs (mgr w))
  && (0 <=? maxLogs (mgr w))
  && forallb (openb (chans w)) (subscribers (mgr w))
  && nodupb (subscribers (mgr w)).

(** ** Sample inputs *)

(** A growth policy: a moved slice gets as many spare slots as it had
    capacity. *)
Definition spare_doubling (c n : nat) : nat := c.

Definition sample_config : HugoConfig :=
  {| Port := 1313; AutoStart := false;
     AdditionalArgs := ["--buildDrafts"%string; "--navigateToChanged"%string];
     DisableFastRender := true |}.

(** A manager fresh from [NewManager]. *)
Definition sample_world : World := NewManager "/srv/site" sample_config.

Definition sample_cmd : Cmd :=
  {| Path := "hugo";
     Args := ["hugo"; "server"; "--port"; "1313"; "--disableFastRender";
              "--buildDrafts"; "--navigateToChanged"]%string;
     Dir := "/srv/site";
     Process := None |}.

(** The sample manager after [Start] launched process 42. *)
Definition sample_starting : World :=
  {| mgr := {| projectDir := "/srv/site";
               config := sample_config;
               cmd := Some (Cmd_set_Process (Some 42%nat) sample_cmd);
               status := StatusStarting;
               statusMsg := "Starting Hugo server...";
               logs := {| s_arr := 0; s_off := 0; s_len := 1;
                          s_cap := 1000 |};
               subscribers := [];
               maxLogs := 1000 |};
     arrays := [ {| Time := 0; Message := "Starting Hugo server...";
                    Type_ := "system" |}
                 :: replicate 999 zeroEntry ];
     chans := [];
     goroutines := background_loops;
     os_trace := [EvStart sample_cmd];
     now := 0 |}.

(** The same manager once the process has died with exit status 1 and
    the exit waiter has recorded it. *)
Definition sample_crashed : World :=
  {| mgr := {| projectDir := "/srv/site";
               config := sample_config;
               cmd := Some (Cmd_set_Process (Some 42%nat) sample_cmd);
               status := StatusError;
               statusMsg := "exit status 1";
               logs := {| s_arr := 0; s_off := 0; s_len := 2;
                          s_cap := 1000 |};
               subscribers := [];
               maxLogs := 1000 |};
     arrays := [ {| Time := 0; Message := "Starting Hugo server...";
                    Type_ := "system" |}
                 :: {| Time := 0;
                       Message := "Hugo exited with error: exit status 1";
                       Type_ := "system" |}
                 :: replicate 998 zeroEntry ];
     chans := [];
     goroutines := background_loops;
     os_trace := [EvStart sample_cmd];
     now := 0 |}.

(** A manager with two subscribers, the first of which has a full
    queue. *)
Definition sample_subscribed : World :=
  {| mgr := {| projectDir := "/srv/site";
               config := sample_config;
               cmd := None;
               status := StatusStopped;
               statusMsg := "";
               logs := {| s_arr := 0; s_off := 0; s_len := 0;
                          s_cap := 1000 |};
               subscribers := [0%nat; 1%nat];
               maxLogs := 1000 |};
     arrays := [replicate 1000 zeroEntry];
     chans := [ {| ch_buf := replicate 100 zeroEntry; ch_cap := 100;
                   ch_closed := false |};
                {| ch_buf := []; ch_cap := 100; ch_closed := false |} ];
     goroutines := [];
     os_trace := [];
     now := 5 |}.

Definition sample_entry (n : nat) : LogEntry :=
  {| Time := Z.of_nat n; Message := Sprintf_d (Z.of_nat n);
     Type_ := "stdout" |}.

(** The world a command leaves behind, [w] itself if it panics. *)
Definition exec {A : Type} (c : M A) (w : World) : World :=
  match c w with
  | Ok _ w' => w'
  | Panic => w
  end.

Definition sample_entries (n : nat) : list LogEntry :=
  map sample_entry (seq 0 n).


(** ** Further definitions *)

(** The test of [streamLogs] for a line of the banner of the server. *)
Definition ready_line (line : string) : bool :=
  contains line "Web Server is available"
  || contains line "Serving pages from".

(** The status and message [streamLogs] leaves after the lines [lines] of
    type [logType], from the status [st] with message [msg]: the last
    ready line of standard output decides. *)
Definition status_after_lines (port : Z) (logType : string)
  (lines : list string) (st : Status) (msg : string) : Status * string :=
  if String.eqb logType "stdout" && existsb ready_line lines
  then (StatusRunning, "Running on port " +:+ Sprintf_d port)
  else (st, msg).


(** Every channel of the store was made with capacity 100 and holds no
    more entries than that. *)
Definition queues_bounded (w : World) : Prop :=
  forall ch c, chans w !! ch = Some c ->
               ch_cap c = 100%nat /\ (length (ch_buf c) <= 100)%nat.

(** The manager still has the project directory and the configuration it
    was made with. *)
Definition settings_are (dir : string) (cfg : HugoConfig) (w : World)
  : Prop :=
  projectDir (mgr w) = dir /\ config (mgr w) = cfg.

Section Handlers.

(** [strconv.Atoi], which is not part of the repository: the integer a
    string denotes, or [None] for the error. *)
Variable Atoi : string -> option Z.


End Handlers.

(** ** Validation of the configuration file *)

(** [config.TemplateField]; its fields [Type] and [Default] carry the name
    of the record. *)
Record TemplateField : Type := {
  TemplateField_Type : string;
  TemplateField_Default : string
}.

(** The map [validTypes] of [validateTemplates]. *)
Definition validTypes : gmap string bool :=
  list_to_map [("text"%string, true); ("textarea"%string, true);
               ("number"%string, true); ("bool"%string, true);
               ("date"%string, true)].

(** [validTypes[t]]: a missing key reads as [false]. *)
Definition validTypes_at (t : string) : bool :=
  default false (validTypes !! t).

(** The inner loop of [validateTemplates] over the fields of the
    template [templateName], in the order [range] yields them; the
    result is the message of the error, [None] when the loop ends. *)
Fixpoint validateFields (templateName : string)
  (fields : list (string * TemplateField)) : option string :=
  match fields with
  | [] => None
  | (fieldName, field) :: rest =>
      if String.eqb fieldName "" then
        Some ("template '" +:+ templateName
              +:+ "': field name cannot be empty")
      else if String.eqb (TemplateField_Type field) "" then
        Some ("template '" +:+ templateName +:+ "': field '" +:+ fieldName
              +:+ "': type cannot be empty")
      else if negb (validTypes_at (TemplateField_Type field)) then
        Some ("template '" +:+ templateName +:+ "': field '" +:+ fieldName
              +:+ "': invalid type '" +:+ TemplateField_Type field
              +:+ "', must be one of: text, textarea, number, bool, date")
      else validateFields templateName rest
  end.

(** [func validateTemplates(templates TemplatesConfig) error]; the two
    maps are given as the sequences in which [range] yields their
    entries, an order Go does not fix. *)
Fixpoint validateTemplates
  (templates : list (string * list (string * TemplateField)))
  : option string :=
  match templates with
  | [] => None
  | (templateName, fields) :: rest =>
      if String.eqb templateName "" then
        Some "template name cannot be empty"%string
      else match validateFields templateName fields with
           | Some err => Some err
           | None => validateTemplates rest
           end
  end.

(** A field the validation accepts: it has a name and its type is one of
    the five known ones. *)
Definition field_ok (f : string * TemplateField) : Prop :=
  fst f <> ""%string /\
  TemplateField_Type (snd f)
    ∈ ["text"; "textarea"; "number"; "bool"; "date"]%string.

(** A template the validation accepts. *)
Definition template_ok (t : string * list (string * TemplateField)) : Prop :=
  fst t <> ""%string /\ Forall field_ok (snd t).

Definition sample_templates
  : list (string * list (string * TemplateField)) :=
  [("post"%string,
    [("title"%string, {| TemplateField_Type := "text";
                         TemplateField_Default := "" |});
     ("draft"%string, {| TemplateField_Type := "bool";
                         TemplateField_Default := "true" |})]);
   ("page"%string,
    [("weight"%string, {| TemplateField_Type := "number";
                          TemplateField_Default := "0" |})])].
(* ===================================================================== *)
(** * Facts about substrings *)
(* ===================================================================== *)

Section StringFacts.

Lemma append_nil_l (s : string) : (""%string +:+ s) = s.
Proof. reflexivity. Qed.

Lemma append_cons (c : ascii) (a b : string) :
  (String c a +:+ b) = String c (a +:+ b).
Proof. reflexivity. Qed.

Lemma length_append (a b : string) :
  String.length (a +:+ b) = (String.length a + String.length b)%nat.
Proof.
  induction a as [|c a IH]; [reflexivity|].
  rewrite append_cons. simpl. now rewrite IH.
Qed.

Lemma substring_append_front (mid post : string) :
  String.substring 0 (String.length mid) (mid +:+ post) = mid.
Proof.
  induction mid as [|c mid IHm].
  - rewrite append_nil_l. now destruct post.
  - rewrite append_cons. simpl. now rewrite IHm.
Qed.

Lemma substring_append_mid (pre mid post : string) :
  String.substring (String.length pre) (String.length mid)
    (pre +:+ mid +:+ post) = mid.
Proof.
  induction pre as [|c pre IH].
  - exact (substring_append_front mid post).
  - rewrite append_cons. simpl. exact IH.
Qed.

Lemma substring_split (s : string) (n m : nat) :
  (n + m <= String.length s)%nat ->
  exists pre post,
    String.length pre = n /\
    s = pre +:+ String.substring n m s +:+ post.
Proof.
  revert n m. induction s as [|c s IH]; intros n m Hle; simpl in Hle.
  - assert (n = 0%nat) by lia. assert (m = 0%nat) by lia. subst.
    now exists ""%string, ""%string.
  - destruct n as [|n].
    + destruct m as [|m].
      * now exists ""%string, (String c s).
      * destruct (IH 0%nat m) as (pre & post & Hlen & Heq); [lia|].
        destruct pre; [|discriminate]. rewrite append_nil_l in Heq.
        exists ""%string, post. split; [reflexivity|].
        simpl. rewrite append_nil_l, append_cons. now rewrite <- Heq.
    + destruct (IH n m) as (pre & post & Hlen & Heq); [lia|].
      exists (String c pre), post. split; [simpl; now rewrite Hlen|].
      simpl. rewrite append_cons. now rewrite <- Heq.
Qed.

Lemma containsAt_loop_true (rem : nat) (i : Z) (s substr : string) :
  containsAt_loop rem i s substr = true <->
  exists j, i <= j < i + Z.of_nat rem /\
            str_slice s j (j + len substr) = substr.
Proof.
  revert i. induction rem as [|rem IH]; intros i; simpl containsAt_loop.
  - split; [discriminate | intros (j & Hj & _); lia].
  - destruct (String.eqb _ _) eqn:E.
    + apply String.eqb_eq in E. split; [intros _ | reflexivity].
      exists i. split; [lia | exact E].
    + apply String.eqb_neq in E. rewrite IH. split.
      * intros (j & Hj & Hs). exists j. split; [lia | exact Hs].
      * intros (j & Hj & Hs). exists j. split; [|exact Hs].
        destruct (Z.eq_dec j i) as [->|]; [contradiction | lia].
Qed.

Lemma str_slice_occurrence (s substr : string) (j : Z) :
  0 <= j -> j + len substr <= len s ->
  str_slice s j (j + len substr) = substr ->
  is_substring substr s.
Proof.
  unfold str_slice, len. intros Hj Hle Heq.
  replace (j + Z.of_nat (String.length substr) - j)
    with (Z.of_nat (String.length substr)) in Heq by lia.
  rewrite Nat2Z.id in Heq.
  destruct (substring_split s (Z.to_nat j) (String.length substr))
    as (pre & post & _ & Hs); [lia|].
  rewrite Heq in Hs. now exists pre, post.
Qed.

Lemma occurrence_str_slice (pre substr post : string) :
  str_slice (pre +:+ substr +:+ post) (len pre) (len pre + len substr)
    = substr.
Proof.
  unfold str_slice, len.
  replace (Z.of_nat (String.length pre) + Z.of_nat (String.length substr)
           - Z.of_nat (String.length pre))
    with (Z.of_nat (String.length substr)) by lia.
  rewrite !Nat2Z.id. apply substring_append_mid.
Qed.

Lemma containsAt_iff (s substr : string) :
  len substr <= len s ->
  containsAt s substr = true <-> is_substring substr s.
Proof.
  intros Hle. unfold containsAt. rewrite containsAt_loop_true. split.
  - intros (j & Hj & Hs).
    apply (str_slice_occurrence s substr j); [lia | lia | exact Hs].
  - intros (pre & post & ->). exists (len pre). split.
    + unfold len in *. rewrite !length_append in *. lia.
    + apply occurrence_str_slice.
Qed.

Lemma is_substring_len (s substr : string) :
  is_substring substr s -> len substr <= len s.
Proof.
  intros (pre & post & ->). unfold len. rewrite !length_append. lia.
Qed.

Lemma contains_iff (s substr : string) :
  contains s substr = true <-> is_substring substr s.
Proof.
  unfold contains. split.
  - intros H. apply andb_prop in H as [Hge H].
    apply Z.geb_le in Hge.
    apply orb_prop in H as [H|H].
    + apply String.eqb_eq in H. subst substr.
      exists ""%string, ""%string. rewrite append_nil_l.
      clear. induction s as [|c s IH]; [reflexivity|].
      rewrite append_cons. now rewrite <- IH.
    + apply andb_prop in H as [_ H]. now apply containsAt_iff.
  - intros H. pose proof (is_substring_len _ _ H) as Hle.
    apply andb_true_intro. split; [now apply Z.geb_le|].
    destruct (String.eqb s substr) eqn:E; [reflexivity|]. simpl.
    apply andb_true_intro. split.
    + apply Z.gtb_lt. destruct s as [|c s].
      * destruct H as (pre & post & H).
        destruct pre; [|discriminate]. destruct substr; [|discriminate].
        discriminate.
      * unfold len. simpl String.length. lia.
    + now apply containsAt_iff.
Qed.

End StringFacts.

(** C10. For all strings [s] and [substr], [contains s substr] is [true]
    exactly when [substr] occurs as a contiguous substring of [s]; the
    empty string occurs in every string.  The guard of [contains] does not
    change what the scan of [containsAt] decides. *)
Theorem contains_is_substring (s substr : string) :
  (contains s substr = true <-> is_substring substr s) /\
  contains s ""%string = true.
Proof.
  assert (Hiff : forall a b, contains a b = true <-> is_substring b a).
  { intros a b. unfold contains. split.
    - intros H. apply andb_prop in H as [Hge H].
      apply Z.geb_le in Hge.
      apply orb_prop in H as [H|H].
      + apply String.eqb_eq in H. subst b.
        exists ""%string, ""%string. rewrite append_nil_l.
        clear. induction a as [|c a IH]; [reflexivity|].
        rewrite append_cons. now rewrite <- IH.
      + apply andb_prop in H as [_ H]. now apply containsAt_iff.
    - intros H. pose proof (is_substring_len _ _ H) as Hle.
      apply andb_true_intro. split; [now apply Z.geb_le|].
      destruct (String.eqb a b) eqn:E; [reflexivity|]. simpl.
      apply andb_true_intro. split.
      + apply Z.gtb_lt. destruct a as [|c a].
        * destruct H as (pre & post & H).
          destruct pre; [|discriminate]. destruct b; [|discriminate].
          discriminate.
        * unfold len. simpl String.length. lia.
      + now apply containsAt_iff. }
  split; [apply Hiff|].
  apply Hiff. now exists ""%string, s.
Qed.

(* ===================================================================== *)
(** * Running commands *)
(* ===================================================================== *)

Lemma runs_ret {A : Type} (a : A) (w : World) (Q : A -> World -> Prop) :
  Q a w -> runs (ret a) w Q.
Proof. intros HQ. exists a, w. split; [reflexivity | exact HQ]. Qed.

Lemma runs_bind {A B : Type} (c : M A) (k : A -> M B) (w : World)
  (Q : B -> World -> Prop) :
  runs c w (fun a w' => runs (k a) w' Q) -> runs (bind c k) w Q.
Proof.
  intros (a & w' & Hc & b & w'' & Hk & HQ).
  exists b, w''. unfold bind. rewrite Hc. split; assumption.
Qed.

Lemma runs_gets {A : Type} (f : World -> A) (w : World)
  (Q : A -> World -> Prop) :
  Q (f w) w -> runs (gets f) w Q.
Proof. intros HQ. exists (f w), w. split; [reflexivity | exact HQ]. Qed.

Lemma runs_modify (f : World -> World) (w : World)
  (Q : unit -> World -> Prop) :
  Q tt (f w) -> runs (modify f) w Q.
Proof. intros HQ. exists tt, (f w). split; [reflexivity | exact HQ]. Qed.

Lemma runs_weaken {A : Type} (c : M A) (w : World)
  (P Q : A -> World -> Prop) :
  runs c w P -> (forall a w', P a w' -> Q a w') -> runs c w Q.
Proof.
  intros (a & w' & Hc & HP) HPQ. exists a, w'. split; [exact Hc | auto].
Qed.

Lemma runs_eq {A : Type} (c : M A) (w : World) (a : A) (w' : World)
  (Q : A -> World -> Prop) :
  c w = Ok a w' -> Q a w' -> runs c w Q.
Proof. intros Hc HQ. exists a, w'. split; assumption. Qed.

Lemma runs_inv {A : Type} (c : M A) (w : World) (a : A) (w' : World)
  (Q : A -> World -> Prop) :
  runs c w Q -> c w = Ok a w' -> Q a w'.
Proof.
  intros (a0 & w0 & Hc & HQ) Heq. rewrite Hc in Heq.
  injection Heq as -> ->. exact HQ.
Qed.

(* ===================================================================== *)
(** * Slices in the store *)
(* ===================================================================== *)

Lemma keep_last_length {A : Type} (n : nat) (l : list A) :
  length (keep_last n l) = Nat.min n (length l).
Proof. unfold keep_last. rewrite length_drop. lia. Qed.

Lemma keep_last_all {A : Type} (n : nat) (l : list A) :
  (length l <= n)%nat -> keep_last n l = l.
Proof.
  intros H. unfold keep_last.
  replace (length l - n)%nat with 0%nat by lia. reflexivity.
Qed.

Lemma keep_last_app {A : Type} (n : nat) (l k : list A) :
  (n <= length k)%nat -> keep_last n (l ++ k) = keep_last n k.
Proof.
  intros H. unfold keep_last. rewrite length_app.
  replace (length l + length k - n)%nat
    with (length l + (length k - n))%nat by lia.
  apply drop_app_add.
Qed.

Lemma keep_last_snoc {A : Type} (n : nat) (l : list A) (x : A) :
  keep_last n (keep_last n l ++ [x]) = keep_last n (l ++ [x]).
Proof.
  destruct (decide (length l <= n)%nat) as [Hle|Hgt].
  - now rewrite (keep_last_all n l Hle).
  - unfold keep_last. rewrite !length_app, length_drop. simpl.
    replace (length l - (length l - n) + 1 - n)%nat with 1%nat by lia.
    replace (length l + 1 - n)%nat with ((length l - n) + 1)%nat by lia.
    rewrite <- drop_drop. f_equal. rewrite drop_app_le by lia. reflexivity.
Qed.

Lemma keep_last_app_assoc {A : Type} (n : nat) (l k : list A) :
  keep_last n (keep_last n l ++ k) = keep_last n (l ++ k).
Proof.
  revert l. induction k as [|x k IH]; intros l.
  - rewrite !app_nil_r. unfold keep_last at 1. rewrite keep_last_length.
    unfold keep_last. rewrite drop_drop. f_equal. lia.
  - rewrite !(cons_middle x), !app_assoc.
    rewrite <- IH. rewrite keep_last_snoc. apply IH.
Qed.

Lemma slice_ok_view (arrs : list (list LogEntry)) (s : Slice) :
  slice_ok arrs s ->
  exists v, slice_view arrs s = Some v /\ length v = s_len s.
Proof.
  intros (a & Ha & Hcap & Hlen). unfold slice_view. rewrite Ha.
  destruct (Nat.ltb_spec (length a) (s_off s + s_len s)) as [Hlt|Hge];
    [lia|].
  eexists. split; [reflexivity|].
  rewrite length_take, length_drop. lia.
Qed.

Lemma slice_view_length (arrs : list (list LogEntry)) (s : Slice)
  (v : list LogEntry) :
  slice_view arrs s = Some v -> length v = s_len s.
Proof.
  unfold slice_view. destruct (arrs !! s_arr s) as [a|]; [|discriminate].
  destruct (Nat.ltb_spec (length a) (s_off s + s_len s)) as [Hlt|Hge];
    [discriminate|].
  intros [= <-]. rewrite length_take, length_drop. lia.
Qed.

Lemma slice_view_frame (k : nat) (arrs arrs' : list (list LogEntry))
  (s : Slice) :
  arrays_frame k arrs arrs' ->
  s_arr s <> k -> (s_arr s < length arrs)%nat ->
  slice_view arrs' s = slice_view arrs s.
Proof.
  intros [_ Hsame] Hne Hlt. unfold slice_view.
  now rewrite (Hsame _ Hne Hlt).
Qed.

Lemma slice_elems_runs (s : Slice) (w : World) (v : list LogEntry)
  (Q : list LogEntry -> World -> Prop) :
  slice_view (arrays w) s = Some v -> Q v w -> runs (slice_elems s) w Q.
Proof.
  unfold slice_view. intros Hv HQ.
  destruct (arrays w !! s_arr s) as [a|] eqn:Ha; [|discriminate].
  destruct (length a <? s_off s + s_len s)%nat eqn:Hlt; [discriminate|].
  injection Hv as <-.
  apply (runs_eq _ _ (take (s_len s) (drop (s_off s) a)) w); [|exact HQ].
  unfold slice_elems, bind, read_array. now rewrite Ha, Hlt.
Qed.

Lemma make_runs (n c : Z) (w : World) (Q : Slice -> World -> Prop) :
  0 <= n <= c ->
  Q {| s_arr := length (arrays w); s_off := 0; s_len := Z.to_nat n;
       s_cap := Z.to_nat c |}
    (with_arrays (fun arrs => arrs ++ [replicate (Z.to_nat c) zeroEntry]) w) ->
  runs (make n c) w Q.
Proof.
  intros Hn HQ. unfold make.
  destruct (Z.ltb_spec n 0) as [?|_]; [lia|].
  destruct (Z.ltb_spec c n) as [?|_]; [lia|]. simpl.
  apply runs_bind. eapply runs_eq; [reflexivity|].
  apply runs_ret. exact HQ.
Qed.

Lemma reslice_from_runs (s : Slice) (lo : Z) (w : World)
  (v : list LogEntry) (Q : Slice -> World -> Prop) :
  slice_ok (arrays w) s ->
  slice_view (arrays w) s = Some v ->
  0 <= lo <= Z.of_nat (s_len s) ->
  (forall s', s_arr s' = s_arr s ->
              s_len s' = (s_len s - Z.to_nat lo)%nat ->
              slice_ok (arrays w) s' ->
              slice_view (arrays w) s' = Some (drop (Z.to_nat lo) v) ->
              Q s' w) ->
  runs (reslice_from s lo) w Q.
Proof.
  intros (a & Ha & Hcap & Hlen) Hv Hlo HQ. unfold reslice_from.
  destruct (Z.ltb_spec lo 0) as [?|_]; [lia|].
  destruct (Z.ltb_spec (Z.of_nat (s_len s)) lo) as [?|_]; [lia|]. simpl.
  apply runs_ret. apply HQ; simpl; try reflexivity.
  - exists a. simpl. split; [exact Ha|]. lia.
  - unfold slice_view in *. simpl. rewrite Ha in *.
    destruct (Nat.ltb_spec (length a) (s_off s + s_len s)) as [?|_];
      [lia|].
    destruct (Nat.ltb_spec (length a)
                (s_off s + Z.to_nat lo + (s_len s - Z.to_nat lo)))
      as [?|_]; [lia|].
    injection Hv as <-. f_equal.
    rewrite skipn_firstn_comm, drop_drop. reflexivity.
Qed.

Lemma copy_runs (dst src : Slice) (w : World) (vd vs : list LogEntry)
  (Q : nat -> World -> Prop) :
  slice_ok (arrays w) dst ->
  slice_view (arrays w) dst = Some vd ->
  slice_view (arrays w) src = Some vs ->
  (forall arrs',
      arrays_frame (s_arr dst) (arrays w) arrs' ->
      length arrs' = length (arrays w) ->
      slice_view arrs' dst
        = Some (take (Nat.min (s_len dst) (s_len src)) vs
                ++ drop (Nat.min (s_len dst) (s_len src)) vd) ->
      Q (Nat.min (s_len dst) (s_len src))
        (with_arrays (fun _ => arrs') w)) ->
  runs (copy dst src) w Q.
Proof.
  intros (a & Ha & Hcap & Hlen) Hvd Hvs HQ. unfold copy.
  pose proof (slice_view_length _ _ _ Hvs) as Hlvs.
  set (n := Nat.min (s_len dst) (s_len src)).
  apply runs_bind. apply (slice_elems_runs _ _ vs); [exact Hvs|].
  apply runs_bind. eapply runs_eq.
  { unfold read_array. rewrite Ha. reflexivity. }
  destruct (Nat.ltb_spec (length a) (s_off dst + n)) as [?|_]; [lia|].
  apply runs_bind. apply runs_modify. apply runs_ret.
  pose proof (lookup_lt_Some _ _ _ Ha) as Hlt.
  unfold with_arrays at 1. simpl.
  apply (HQ (<[s_arr dst := _]> (arrays w))).
  - split; [now rewrite length_insert|].
    intros i Hi _. now apply list_lookup_insert_ne.
  - apply length_insert.
  - unfold slice_view in *. rewrite Ha in Hvd.
    rewrite list_lookup_insert_eq by exact Hlt.
    destruct (Nat.ltb_spec (length a) (s_off dst + s_len dst)) as [?|_];
      [lia|].
    injection Hvd as <-.
    assert (Hl1 : length (take (s_off dst) a) = s_off dst)
      by (rewrite length_take; lia).
    assert (Hl2 : length (take n vs) = n)
      by (rewrite length_take; lia).
    rewrite !length_app, Hl1, Hl2, length_drop.
    destruct (Nat.ltb_spec (s_off dst + (n + (length a - (s_off dst + n))))
                (s_off dst + s_len dst)) as [?|_]; [lia|].
    f_equal.
    rewrite (drop_app_length' _ _ (s_off dst)) by (symmetry; exact Hl1).
    rewrite take_app_ge by lia. rewrite Hl2. f_equal.
    rewrite skipn_firstn_comm, drop_drop. reflexivity.
Qed.

Lemma append_runs (s : Slice) (e : LogEntry) (w : World)
  (v : list LogEntry) (Q : Slice -> World -> Prop) :
  slice_ok (arrays w) s ->
  slice_view (arrays w) s = Some v ->
  (forall s' arrs',
      slice_ok arrs' s' ->
      slice_view arrs' s' = Some (v ++ [e]) ->
      arrays_frame (s_arr s) (arrays w) arrs' ->
      s_arr s' = s_arr s \/ s_arr s' = length (arrays w) ->
      Q s' (with_arrays (fun _ => arrs') w)) ->
  runs (append s e) w Q.
Proof.
  intros (a & Ha & Hcap & Hlen) Hv HQ. unfold append.
  pose proof (lookup_lt_Some _ _ _ Ha) as Hlt.
  assert (Hva : v = take (s_len s) (drop (s_off s) a)).
  { unfold slice_view in Hv. rewrite Ha in Hv.
    destruct (Nat.ltb_spec (length a) (s_off s + s_len s)) as [?|_];
      [lia|]. now injection Hv. }
  destruct (Nat.ltb_spec (s_len s) (s_cap s)) as [Hroom|Hfull].
  - apply runs_bind. eapply runs_eq.
    { unfold read_array. rewrite Ha. reflexivity. }
    destruct (Nat.leb_spec (length a) (s_off s + s_len s)) as [?|_]; [lia|].
    apply runs_bind. apply runs_modify. apply runs_ret.
    unfold with_arrays at 1. simpl.
    apply (HQ _ (<[s_arr s := _]> (arrays w))).
    + eexists. simpl. split; [now apply list_lookup_insert_eq|].
      rewrite length_insert. lia.
    + unfold slice_view. simpl.
      rewrite list_lookup_insert_eq by exact Hlt.
      rewrite length_insert.
      destruct (Nat.ltb_spec (length a) (s_off s + S (s_len s))) as [?|_];
        [lia|].
      f_equal. rewrite drop_insert_ge by lia.
      replace (s_off s + s_len s - s_off s)%nat with (s_len s) by lia.
      rewrite (take_S_r _ _ e).
      * rewrite take_insert_ge by lia. now rewrite Hva.
      * apply list_lookup_insert_eq. rewrite length_drop. lia.
    + split; [now rewrite length_insert|].
      intros i Hi _. now apply list_lookup_insert_ne.
    + now left.
  - apply runs_bind. apply (slice_elems_runs _ _ v); [exact Hv|].
    apply runs_bind. eapply runs_eq; [reflexivity|].
    apply runs_ret. unfold with_arrays at 1. simpl.
    pose proof (slice_view_length _ _ _ Hv) as Hlv.
    apply (HQ _ (arrays w ++ [_])).
    + eexists. simpl. split.
      * apply list_lookup_middle. reflexivity.
      * rewrite length_app. simpl. rewrite length_replicate. lia.
    + unfold slice_view. simpl.
      rewrite list_lookup_middle by reflexivity.
      rewrite length_app. simpl. rewrite length_replicate.
      destruct (Nat.ltb_spec
                  (length v + S (growslice_spare (s_cap s) (S (s_len s))))
                  (S (s_len s))) as [?|_]; [lia|].
      f_equal. rewrite (cons_middle e v), app_assoc.
      apply take_app_length'. rewrite length_app. simpl. lia.
    + split; [rewrite length_app; lia|].
      intros i _ Hi. now apply lookup_app_l.
    + now right.
Qed.

(* ===================================================================== *)
(** * Channels and the broadcast *)
(* ===================================================================== *)

Lemma offer_closed (e : LogEntry) (c : Chan) :
  ch_closed (offer e c) = ch_closed c.
Proof. unfold offer. now destruct (_ <? _)%nat. Qed.

Lemma offer_cap (e : LogEntry) (c : Chan) : ch_cap (offer e c) = ch_cap c.
Proof. unfold offer. now destruct (_ <? _)%nat. Qed.

Lemma offer_bounded (e : LogEntry) (c : Chan) :
  (length (ch_buf c) <= ch_cap c)%nat ->
  (length (ch_buf (offer e c)) <= ch_cap (offer e c))%nat.
Proof.
  unfold offer. destruct (Nat.ltb_spec (length (ch_buf c)) (ch_cap c));
    simpl; [rewrite length_app; simpl; lia | auto].
Qed.

Lemma broadcast_length (e : LogEntry) (subs : list nat) (cs : list Chan) :
  length (broadcast e subs cs) = length cs.
Proof.
  revert cs. induction subs as [|ch subs IH]; intros cs; simpl;
    [reflexivity|].
  rewrite IH. destruct (cs !! ch); [apply length_insert | reflexivity].
Qed.

Lemma broadcast_lookup_other (e : LogEntry) (subs : list nat)
  (cs : list Chan) (ch : nat) :
  ch ∉ subs -> broadcast e subs cs !! ch = cs !! ch.
Proof.
  revert cs. induction subs as [|x subs IH]; intros cs Hnotin; simpl;
    [reflexivity|].
  apply not_elem_of_cons in Hnotin as [Hne Hnotin].
  rewrite IH by exact Hnotin.
  destruct (cs !! x); [|reflexivity].
  apply list_lookup_insert_ne. congruence.
Qed.

Lemma broadcast_lookup_sub (e : LogEntry) (subs : list nat)
  (cs : list Chan) (ch : nat) (c : Chan) :
  NoDup subs -> ch ∈ subs -> cs !! ch = Some c ->
  broadcast e subs cs !! ch = Some (offer e c).
Proof.
  revert cs. induction subs as [|x subs IH]; intros cs Hnd Hin Hc.
  - now apply elem_of_nil in Hin.
  - apply NoDup_cons in Hnd as [Hx Hnd]. simpl.
    apply elem_of_cons in Hin as [->|Hin].
    + rewrite broadcast_lookup_other by exact Hx. rewrite Hc.
      apply list_lookup_insert_eq. now apply lookup_lt_Some in Hc.
    + apply IH; [exact Hnd | exact Hin |].
      destruct (cs !! x) eqn:Hx'; [|exact Hc].
      rewrite list_lookup_insert_ne; [exact Hc|].
      intros ->. contradiction.
Qed.

Lemma select_send_runs (ch : nat) (e : LogEntry) (w : World) (c : Chan)
  (Q : unit -> World -> Prop) :
  chans w !! ch = Some c -> ch_closed c = false ->
  Q tt (with_chans (fun cs => <[ch := offer e c]> cs) w) ->
  runs (select_send ch e) w Q.
Proof.
  intros Hc Hopen HQ. eapply runs_eq; [|exact HQ].
  unfold select_send, bind, read_chan. rewrite Hc, Hopen. reflexivity.
Qed.

Lemma for_range_send_runs (e : LogEntry) (subs : list nat) (w : World)
  (Q : unit -> World -> Prop) :
  (forall ch, ch ∈ subs ->
              exists c, chans w !! ch = Some c /\ ch_closed c = false) ->
  Q tt (with_chans (broadcast e subs) w) ->
  runs (for_range subs (fun ch => select_send ch e)) w Q.
Proof.
  revert w. induction subs as [|ch subs IH]; intros w Hopen HQ; simpl.
  - apply runs_ret. now destruct w.
  - destruct (Hopen ch) as (c & Hc & Hcl); [apply list_elem_of_here|].
    apply runs_bind. apply (select_send_runs ch e w c _ Hc Hcl).
    apply IH.
    + intros ch' Hin. simpl.
      destruct (decide (ch = ch')) as [<-|Hne].
      * exists (offer e c). split; [|now rewrite offer_closed].
        apply list_lookup_insert_eq. now apply lookup_lt_Some in Hc.
      * rewrite list_lookup_insert_ne by exact Hne.
        apply Hopen. now apply list_elem_of_further.
    + unfold with_chans in *. simpl in *. now rewrite Hc in HQ.
Qed.

(* ===================================================================== *)
(** * [addLog] *)
(* ===================================================================== *)

Lemma wf_log_view (w : World) :
  well_formed w -> exists v, log_view w = Some v /\ length v = s_len (logs (mgr w)).
Proof. intros Hwf. apply slice_ok_view, (wf_logs w Hwf). Qed.

Lemma addLog_runs (message logType : string) (w : World)
  (v : list LogEntry) :
  well_formed w -> log_view w = Some v ->
  runs (addLog message logType) w (fun _ w' =>
    exists l' arrs',
      w' = with_chans
             (broadcast (entry_at w message logType) (subscribers (mgr w)))
             (with_mgr (Manager_set_logs l')
                (with_arrays (fun _ => arrs') w)) /\
      slice_ok arrs' l' /\
      slice_view arrs' l'
        = Some (keep_last (Z.to_nat (maxLogs (mgr w)))
                  (v ++ [entry_at w message logType])) /\
      arrays_frame (s_arr (logs (mgr w))) (arrays w) arrs' /\
      (s_arr l' = s_arr (logs (mgr w)) \/ s_arr l' = length (arrays w))).
Proof.
  intros Hwf Hv. unfold addLog.
  apply runs_bind, runs_gets. apply runs_bind, runs_gets.
  apply runs_bind.
  apply (append_runs _ _ _ v); [apply (wf_logs w Hwf) | exact Hv |].
  intros l1 arrs' Hok Hview Hframe Harr.
  pose proof (slice_view_length _ _ _ Hview) as Hl1.
  rewrite length_app in Hl1. simpl in Hl1.
  pose proof (wf_maxLogs w Hwf) as Hmax.
  apply runs_bind, runs_modify. apply runs_bind, runs_gets. simpl.
  fold (entry_at w message logType) in *.
  destruct (Z.gtb_spec (Z.of_nat (s_len l1)) (maxLogs (mgr w))) as [Hgt|Hle].
  - apply runs_bind. apply runs_bind.
    apply (reslice_from_runs _ _ _ (v ++ [entry_at w message logType]));
      [exact Hok | exact Hview | lia |].
    intros l2 Harr2 Hlen2 Hok2 Hview2. simpl in *.
    apply runs_modify. apply runs_bind, runs_gets. simpl.
    apply for_range_send_runs; [apply (wf_open w Hwf)|].
    exists l2, arrs'. split; [reflexivity|].
    split; [exact Hok2|]. split; [|split; [exact Hframe|]].
    + rewrite Hview2. f_equal. unfold keep_last. f_equal.
      rewrite length_app. simpl. lia.
    + now rewrite Harr2.
  - apply runs_bind, runs_ret. apply runs_bind, runs_gets. simpl.
    apply for_range_send_runs; [apply (wf_open w Hwf)|].
    exists l1, arrs'. split; [reflexivity|].
    split; [exact Hok|]. split; [|split; [exact Hframe | exact Harr]].
    rewrite Hview. f_equal. symmetry. apply keep_last_all.
    rewrite length_app. simpl. lia.
Qed.

Lemma addLog_logged (message logType : string) (w : World) :
  well_formed w ->
  runs (addLog message logType) w
    (fun _ w' => logged (entry_at w message logType) w w').
Proof.
  intros Hwf. destruct (wf_log_view w Hwf) as (v & Hv & _).
  eapply runs_weaken; [apply (addLog_runs _ _ _ v Hwf Hv)|].
  intros [] w' (l' & arrs' & -> & Hok & Hview & Hframe & Harr).
  split; simpl; try reflexivity; try assumption.
  - split; simpl.
    + exact Hok.
    + apply (wf_maxLogs w Hwf).
    + intros ch Hin. simpl.
      destruct (wf_open w Hwf ch Hin) as (c & Hc & Hcl).
      exists (offer (entry_at w message logType) c).
      split; [|now rewrite offer_closed].
      apply broadcast_lookup_sub; [apply (wf_nodup w Hwf) | exact Hin
                                  | exact Hc].
    + apply (wf_nodup w Hwf).
  - intros v' Hv'. rewrite Hv in Hv'. injection Hv' as <-.
    exact Hview.
Qed.

Section LoggedFacts.

Variables (e : LogEntry) (w w' : World).
Hypothesis H : logged e w w'.

Lemma logged_status : status (mgr w') = status (mgr w).
Proof. now rewrite (logged_mgr _ _ _ H). Qed.

Lemma logged_statusMsg : statusMsg (mgr w') = statusMsg (mgr w).
Proof. now rewrite (logged_mgr _ _ _ H). Qed.

Lemma logged_cmd : cmd (mgr w') = cmd (mgr w).
Proof. now rewrite (logged_mgr _ _ _ H). Qed.

Lemma logged_config : config (mgr w') = config (mgr w).
Proof. now rewrite (logged_mgr _ _ _ H). Qed.

Lemma logged_projectDir : projectDir (mgr w') = projectDir (mgr w).
Proof. now rewrite (logged_mgr _ _ _ H). Qed.

Lemma logged_subscribers : subscribers (mgr w') = subscribers (mgr w).
Proof. now rewrite (logged_mgr _ _ _ H). Qed.

Lemma logged_maxLogs : maxLogs (mgr w') = maxLogs (mgr w).
Proof. now rewrite (logged_mgr _ _ _ H). Qed.

Lemma logged_other_array (i : nat) :
  (i < length (arrays w))%nat -> i <> s_arr (logs (mgr w)) ->
  arrays w' !! i = arrays w !! i /\
  (i < length (arrays w'))%nat /\ i <> s_arr (logs (mgr w')).
Proof.
  intros Hlt Hne. destruct (logged_frame _ _ _ H) as [Hlen Hsame].
  split; [now apply Hsame|]. split; [lia|].
  destruct (logged_arr _ _ _ H) as [-> | ->]; [exact Hne | lia].
Qed.

End LoggedFacts.

(** Changes of the manager that leave the buffer and the subscribers
    alone keep the world well formed. *)
Lemma wf_with_mgr (f : Manager -> Manager) (w : World) :
  logs (f (mgr w)) = logs (mgr w) ->
  maxLogs (f (mgr w)) = maxLogs (mgr w) ->
  subscribers (f (mgr w)) = subscribers (mgr w) ->
  well_formed w -> well_formed (with_mgr f w).
Proof.
  intros Hl Hm Hs [H1 H2 H3 H4]. split; simpl.
  - now rewrite Hl.
  - now rewrite Hm.
  - intros ch Hin. simpl in *. rewrite Hs in Hin. now apply H3.
  - now rewrite Hs.
Qed.

Lemma wf_with_now (f : Z -> Z) (w : World) : well_formed w -> well_formed (with_now f w).
Proof. intros [H1 H2 H3 H4]. now split. Qed.

Lemma wf_with_os_trace (f : list OSEvent -> list OSEvent) (w : World) :
  well_formed w -> well_formed (with_os_trace f w).
Proof. intros [H1 H2 H3 H4]. now split. Qed.

Lemma wf_with_goroutines (f : list Goroutine -> list Goroutine)
  (w : World) :
  well_formed w -> well_formed (with_goroutines f w).
Proof. intros [H1 H2 H3 H4]. now split. Qed.

Lemma wf_NewManager (dir : string) (cfg : HugoConfig) :
  well_formed (NewManager dir cfg).
Proof.
  split.
  - exists (replicate 1000 zeroEntry). split; [reflexivity|].
    rewrite length_replicate. simpl. lia.
  - simpl. lia.
  - intros ch Hin. now apply elem_of_nil in Hin.
  - apply NoDup_nil_2.
Qed.

Lemma log_view_NewManager (dir : string) (cfg : HugoConfig) :
  log_view (NewManager dir cfg) = Some [].
Proof. reflexivity. Qed.

(* ===================================================================== *)
(** * Runs of appends *)
(* ===================================================================== *)

Lemma entry_at_clock (e : LogEntry) (w : World) :
  entry_at (with_now (fun _ => Time e) w) (Message e) (Type_ e) = e.
Proof. now destruct e. Qed.

Lemma appends_runs (es : list LogEntry) (w : World) (v : list LogEntry) :
  well_formed w -> log_view w = Some v ->
  runs (appends es) w (fun _ w' =>
    well_formed w' /\
    log_view w'
      = Some (match es with
              | [] => v
              | _ => keep_last (Z.to_nat (maxLogs (mgr w))) (v ++ es)
              end) /\
    mgr w' = Manager_set_logs (logs (mgr w')) (mgr w) /\
    chans w' = foldl (fun cs e => broadcast e (subscribers (mgr w)) cs)
                 (chans w) es /\
    forall i, (i < length (arrays w))%nat -> i <> s_arr (logs (mgr w)) ->
              arrays w' !! i = arrays w !! i).
Proof.
  revert w v. induction es as [|e es IH]; intros w v Hwf Hv.
  - apply runs_ret. simpl.
    split; [exact Hwf|]. split; [exact Hv|].
    split; [now destruct (mgr w)|]. split; [reflexivity | auto].
  - unfold appends. simpl. apply runs_bind. apply runs_bind.
    apply runs_modify.
    eapply runs_weaken; [apply addLog_logged, wf_with_now, Hwf|].
    intros [] w1 Hlog. rewrite entry_at_clock in Hlog.
    pose proof (logged_view _ _ _ Hlog v Hv) as Hv1. simpl in Hv1.
    pose proof (logged_mgr _ _ _ Hlog) as Hm. simpl in Hm.
    eapply runs_weaken.
    { apply (IH w1 _ (logged_wf _ _ _ Hlog) Hv1). }
    intros [] w' (Hwf' & Hv' & Hm' & Hch & Hother). simpl in Hv'.
    split; [exact Hwf'|]. split; [|split; [|split]].
    + rewrite Hv'. f_equal. rewrite Hm. simpl.
      destruct es as [|e' es]; [reflexivity|].
      rewrite keep_last_app_assoc. now rewrite <- app_assoc.
    + rewrite Hm'. rewrite Hm. reflexivity.
    + rewrite Hch, (logged_chans _ _ _ Hlog), Hm. reflexivity.
    + intros i Hlt Hne.
      destruct (logged_other_array _ _ _ Hlog i) as (Hsame & Hlt1 & Hne1);
        [exact Hlt | exact Hne |].
      rewrite (Hother i Hlt1 Hne1). exact Hsame.
Qed.

(* ===================================================================== *)
(** * [GetLogs] *)
(* ===================================================================== *)

Lemma slice_ok_grow (arrs : list (list LogEntry)) (a : list LogEntry)
  (s : Slice) :
  slice_ok arrs s -> slice_ok (arrs ++ [a]) s.
Proof.
  intros (b & Hb & Hrest). exists b. split; [|exact Hrest].
  now apply lookup_app_l_Some.
Qed.

Lemma slice_view_grow (arrs : list (list LogEntry)) (a : list LogEntry)
  (s : Slice) (v : list LogEntry) :
  slice_view arrs s = Some v -> slice_view (arrs ++ [a]) s = Some v.
Proof.
  unfold slice_view. destruct (arrs !! s_arr s) as [b|] eqn:Hb;
    [|discriminate].
  now rewrite (lookup_app_l_Some _ _ _ _ Hb).
Qed.

(** The entries [GetLogs limit] returns from a buffer that holds [v]. *)
Lemma GetLogs_runs (limit : Z) (w : World) (v : list LogEntry) :
  well_formed w -> log_view w = Some v ->
  runs (GetLogs limit) w (fun r w' =>
    w' = with_arrays (fun _ => arrays w') w /\
    s_arr r = length (arrays w) /\
    length (arrays w') = S (length (arrays w)) /\
    (forall i, (i < length (arrays w))%nat ->
               arrays w' !! i = arrays w !! i) /\
    slice_view (arrays w') r = Some (recent limit v)).
Proof.
  intros Hwf Hv. pose proof (wf_logs w Hwf) as Hok.
  pose proof (slice_view_length _ _ _ Hv) as Hlen.
  unfold GetLogs. apply runs_bind, runs_gets.
  set (l := logs (mgr w)) in *.
  set (n := Z.of_nat (s_len l)).
  set (lim := if (limit <=? 0) || (limit >? n) then n else limit).
  set (start := if n - lim <? 0 then 0 else n - lim).
  assert (Hlim : 0 <= lim <= n /\ start = n - lim /\
                 drop (Z.to_nat start) v = recent limit v).
  { unfold recent, start, lim. rewrite Hlen. fold n.
    destruct (Z.leb_spec limit 0) as [Hneg|Hpos]; simpl.
    - destruct (Z.ltb_spec 0 limit) as [?|_]; [lia|]. simpl.
      rewrite Z.sub_diag. simpl. split; [lia|]. split; reflexivity.
    - destruct (Z.ltb_spec 0 limit) as [_|?]; [|lia].
      destruct (Z.gtb_spec limit n) as [Hbig|Hsmall]; simpl.
      + destruct (Z.leb_spec limit n) as [?|_]; [lia|].
        rewrite Z.sub_diag. simpl. split; [lia|]. split; reflexivity.
      + destruct (Z.leb_spec limit n) as [_|?]; [|lia].
        destruct (Z.ltb_spec (n - limit) 0) as [?|_]; [lia|].
        split; [lia|]. split; [reflexivity|].
        unfold keep_last. f_equal. lia. }
  destruct Hlim as (Hlim & Hstart & Hdrop).
  apply runs_bind. apply make_runs; [lia|].
  set (zeros := replicate (Z.to_nat lim) zeroEntry).
  set (r := {| s_arr := length (arrays w); s_off := 0;
               s_len := Z.to_nat lim; s_cap := Z.to_nat lim |}).
  apply runs_bind.
  apply (reslice_from_runs _ _ _ v).
  { simpl. now apply slice_ok_grow. }
  { simpl. now apply slice_view_grow. }
  { fold n. lia. }
  intros src Hsrc_arr Hsrc_len Hsrc_ok Hsrc_view. simpl in Hsrc_view.
  rewrite Hdrop in Hsrc_view.
  assert (Hrecent : length (recent limit v) = Z.to_nat lim).
  { rewrite <- Hdrop, length_drop. lia. }
  apply runs_bind.
  apply (copy_runs r src _ zeros (recent limit v)).
  { exists zeros. simpl. split; [now apply list_lookup_middle|].
    unfold zeros. rewrite length_replicate. lia. }
  { unfold slice_view. simpl. rewrite list_lookup_middle by reflexivity.
    unfold zeros at 1. rewrite length_replicate.
    destruct (Nat.ltb_spec (Z.to_nat lim) (Z.to_nat lim)) as [?|_]; [lia|].
    f_equal. apply take_ge. unfold zeros. rewrite length_replicate. lia. }
  { exact Hsrc_view. }
  intros arrs' [_ Hsame] Hlen' Hview'. simpl in *.
  apply runs_ret. simpl.
  split; [reflexivity|]. split; [reflexivity|].
  split; [rewrite Hlen', length_app; simpl; lia|].
  split.
  - intros i Hi. rewrite Hsame; [now apply lookup_app_l | lia |].
    rewrite length_app. simpl. lia.
  - rewrite Hview'. f_equal.
    replace (Nat.min (Z.to_nat lim) (s_len src)) with (Z.to_nat lim) by lia.
    rewrite take_ge by lia.
    rewrite drop_ge by (unfold zeros; rewrite length_replicate; lia).
    apply app_nil_r.
Qed.

(* ===================================================================== *)
(** * The methods of the manager *)
(* ===================================================================== *)

(** One step through a command built from the primitives. *)
Ltac run_step :=
  lazymatch goal with
  | |- runs (bind _ _) _ _ => apply runs_bind
  | |- runs (gets _) _ _ => apply runs_gets
  | |- runs (modify _) _ _ => apply runs_modify
  | |- runs (ret _) _ _ => apply runs_ret
  | |- runs (setStatus _ _) _ _ => apply runs_modify
  | |- runs (go _) _ _ => apply runs_modify
  | |- runs (os_request _) _ _ => apply runs_modify
  | |- runs (time_Sleep _) _ _ => apply runs_modify
  | |- runs (clock_at _) _ _ => apply runs_modify
  | |- runs time_Now _ _ => apply runs_gets
  end.

Ltac run_steps := repeat run_step.

(** A call of [addLog] in a well-formed world; [Hlog] names what it did. *)
Ltac run_addLog w1 Hlog :=
  eapply runs_weaken;
  [ apply addLog_logged | intros [] w1 Hlog ].

Lemma Start_runs (os : SpawnOutcome) (w : World) :
  well_formed w ->
  status (mgr w) <> StatusRunning -> status (mgr w) <> StatusStarting ->
  runs (Start os) w (fun r w' =>
    exists w1,
      logged (entry_at w "Starting Hugo server..." "system")
        (with_mgr (Manager_set_status StatusStarting
                     "Starting Hugo server...") w) w1 /\
      well_formed w' /\
      r = snd <$> failure_of os /\
      cmd (mgr w')
        = Some (match os with
                | Started pid => Cmd_set_Process (Some pid) (hugo_cmd (mgr w))
                | _ => hugo_cmd (mgr w)
                end) /\
      status (mgr w')
        = (if failure_of os is Some _ then StatusError else StatusStarting) /\
      statusMsg (mgr w')
        = match failure_of os with
          | Some (p, err) => p +:+ err
          | None => "Starting Hugo server..."%string
          end /\
      goroutines w'
        = goroutines w ++ (if failure_of os is Some _ then [] else background_loops) /\
      os_trace w'
        = os_trace w
          ++ (if asks_launch os then [EvStart (hugo_cmd (mgr w))] else []) /\
      logs (mgr w') = logs (mgr w1) /\ arrays w' = arrays w1 /\
      chans w' = chans w1 /\ now w' = now w /\
      subscribers (mgr w') = subscribers (mgr w) /\
      config (mgr w') = config (mgr w) /\
      projectDir (mgr w') = projectDir (mgr w) /\
      maxLogs (mgr w') = maxLogs (mgr w)).
Proof.
  intros Hwf Hrun Hstarting. unfold Start. run_step. run_step.
  destruct (status (mgr w)) eqn:Hst; try congruence; simpl.
  all: run_step; run_step; run_step.
  all: run_addLog w1 Hlog; [now apply wf_with_mgr|].
  all: pose proof (logged_wf _ _ _ Hlog) as Hwf1.
  all: pose proof (logged_mgr _ _ _ Hlog) as Hm; simpl in Hm.
  all: pose proof (logged_goroutines _ _ _ Hlog) as Hg; simpl in Hg.
  all: pose proof (logged_os_trace _ _ _ Hlog) as Ht; simpl in Ht.
  all: pose proof (logged_now _ _ _ Hlog) as Hn; simpl in Hn.
  all: run_steps.
  all: destruct os; run_steps; exists w1; (split; [exact Hlog|]).
  all: simpl; rewrite ?Hg, ?Ht, ?Hn, ?app_nil_r.
  all: repeat split; try reflexivity.
  all: try (rewrite Hm; reflexivity).
  all: try (rewrite <- !app_assoc; reflexivity).
  all: try (rewrite Hm; simpl; unfold hugo_cmd, hugo_args;
            destruct (DisableFastRender (config (mgr w))); reflexivity).
  all: repeat first [ apply wf_with_mgr; try reflexivity
                    | apply wf_with_os_trace
                    | apply wf_with_goroutines ]; try exact Hwf1.
Qed.

Lemma Stop_runs (kill : option string) (w : World) :
  well_formed w -> status (mgr w) <> StatusStopped ->
  runs (Stop kill) w (fun r w' =>
    well_formed w' /\
    r = match kill_target (mgr w), kill with
        | Some _, Some err => Some err
        | _, _ => None
        end /\
    os_trace w'
      = os_trace w ++ match kill_target (mgr w) with
                      | Some pid => [EvKill pid]
                      | None => []
                      end /\
    (forall v, log_view w = Some v ->
       log_view w'
         = Some (keep_last (Z.to_nat (maxLogs (mgr w)))
                   (v ++ entry_at w "Stopping Hugo server..." "system"
                      :: match r with
                         | Some err =>
                             [entry_at w ("Error stopping Hugo: " +:+ err)
                                "system"]
                         | None => []
                         end))) /\
    status (mgr w')
      = (if r is Some _ then status (mgr w) else StatusStopped) /\
    statusMsg (mgr w')
      = (if r is Some _ then statusMsg (mgr w) else ""%string) /\
    goroutines w' = goroutines w /\ now w' = now w /\
    cmd (mgr w') = cmd (mgr w) /\
    subscribers (mgr w') = subscribers (mgr w) /\
    config (mgr w') = config (mgr w) /\
    projectDir (mgr w') = projectDir (mgr w) /\
    maxLogs (mgr w') = maxLogs (mgr w)).
Proof.
  intros Hwf Hst. unfold Stop. run_step. run_step.
  destruct (bool_decide_reflect (status (mgr w) = StatusStopped))
    as [?|_]; [contradiction|].
  run_step. run_addLog w1 Hlog; [exact Hwf|].
  pose proof (logged_wf _ _ _ Hlog) as Hwf1.
  pose proof (logged_mgr _ _ _ Hlog) as Hm.
  pose proof (logged_goroutines _ _ _ Hlog) as Hg.
  pose proof (logged_os_trace _ _ _ Hlog) as Ht.
  pose proof (logged_now _ _ _ Hlog) as Hn.
  pose proof (logged_view _ _ _ Hlog) as Hv1.
  run_step. run_step. run_step.
  rewrite (logged_cmd _ _ _ Hlog). unfold kill_target.
  destruct (cmd (mgr w)) as [[p a d [pid|]]|] eqn:Hcmd; simpl.
  1: destruct kill as [err|].
  1: { run_step. run_step. run_step.
       run_addLog w2 Hlog2; [now apply wf_with_os_trace|].
       run_steps. simpl.
       pose proof (logged_mgr _ _ _ Hlog2) as Hm2. simpl in Hm2.
       split; [apply (logged_wf _ _ _ Hlog2)|].
       split; [reflexivity|].
       split; [now rewrite (logged_os_trace _ _ _ Hlog2); simpl; rewrite Ht|].
       split.
       { intros v Hv. rewrite (logged_view _ _ _ Hlog2 _ (Hv1 v Hv)).
         simpl. rewrite Hm. simpl. f_equal.
         rewrite keep_last_snoc, <- app_assoc. simpl.
         unfold entry_at. simpl. now rewrite Hn. }
       rewrite (logged_goroutines _ _ _ Hlog2), (logged_now _ _ _ Hlog2).
       simpl. rewrite Hg, Hn, Hm2, Hm. simpl. rewrite Hcmd.
       repeat split; reflexivity. }
  all: run_steps; simpl.
  all: split; [apply wf_with_mgr; try reflexivity;
               try apply wf_with_os_trace; exact Hwf1|].
  all: split; [reflexivity|].
  all: rewrite ?Ht, ?Hg, ?Hn, ?app_nil_r.
  all: split; [reflexivity|].
  all: split; [intros v Hv; apply (Hv1 v Hv)|].
  all: rewrite Hm; simpl; rewrite ?Hcmd.
  all: repeat split; reflexivity.
Qed.

(* ===================================================================== *)
(** * The checker of well-formed worlds *)
(* ===================================================================== *)

Lemma nodupb_NoDup (l : list nat) : nodupb l = true -> NoDup l.
Proof.
  induction l as [|x l IH]; simpl; intros H; [apply NoDup_nil_2|].
  apply andb_prop in H as [Hx Hl]. apply NoDup_cons_2; [|auto].
  intros Hin. apply negb_true_iff in Hx.
  assert (existsb (Nat.eqb x) l = true); [|congruence].
  apply existsb_exists. exists x. split; [|apply Nat.eqb_refl].
  now apply list_elem_of_In.
Qed.

Lemma wfb_sound (w : World) : wfb w = true -> well_formed w.
Proof.
  unfold wfb. intros H.
  apply andb_prop in H as [H Hnd]. apply andb_prop in H as [H Hopen].
  apply andb_prop in H as [Hok Hmax]. split.
  - unfold slice_okb in Hok.
    destruct (arrays w !! s_arr (logs (mgr w))) as [a|] eqn:Ha;
      [|discriminate].
    apply andb_prop in Hok as [H1 H2].
    apply Nat.leb_le in H1, H2. now exists a.
  - now apply Z.leb_le.
  - intros ch Hin. rewrite forallb_forall in Hopen.
    specialize (Hopen ch (proj1 (list_elem_of_In _ _) Hin)).
    unfold openb in Hopen. destruct (chans w !! ch) as [c|]; [|discriminate].
    exists c. split; [reflexivity|]. now apply negb_true_iff.
  - now apply nodupb_NoDup.
Qed.

Lemma remove_first_Some (ch : nat) (subs subs' : list nat) :
  remove_first ch subs = Some subs' ->
  ch ∈ subs /\
  (NoDup subs ->
   NoDup subs' /\ (ch ∉ subs') /\ forall x, x ∈ subs' -> x ∈ subs).
Proof.
  revert subs'. induction subs as [|sub rest IH]; intros subs' H;
    simpl in H; [discriminate|].
  destruct (bool_decide_reflect (sub = ch)) as [->|Hne].
  - injection H as <-. split; [apply list_elem_of_here|].
    intros Hnd. apply NoDup_cons in Hnd as [Hnotin Hnd].
    split; [exact Hnd|]. split; [exact Hnotin|].
    intros x Hx. now apply list_elem_of_further.
  - destruct (remove_first ch rest) as [rest'|]; [|discriminate].
    injection H as <-. destruct (IH rest' eq_refl) as [Hin Hrest].
    split; [now apply list_elem_of_further|].
    intros Hnd. apply NoDup_cons in Hnd as [Hnotin Hnd].
    destruct (Hrest Hnd) as (Hnd' & Hch & Hsub).
    split; [|split].
    + apply NoDup_cons_2; [|exact Hnd']. intros Hx. apply Hnotin.
      now apply Hsub.
    + intros Hx. apply elem_of_cons in Hx as [->|Hx]; [congruence|].
      contradiction.
    + intros x Hx. apply elem_of_cons in Hx as [->|Hx];
        [apply list_elem_of_here | apply list_elem_of_further; auto].
Qed.

Lemma remove_first_None (ch : nat) (subs : list nat) :
  remove_first ch subs = None -> ch ∉ subs.
Proof.
  induction subs as [|sub rest IH]; simpl; intros H;
    [apply not_elem_of_nil|].
  destruct (bool_decide_reflect (sub = ch)) as [->|Hne]; [discriminate|].
  destruct (remove_first ch rest); [discriminate|].
  apply not_elem_of_cons. split; [congruence | auto].
Qed.

(** [Unsubscribe] takes the channel out of the subscribers before it
    closes it, so no subscriber is ever a closed channel. *)
Lemma Unsubscribe_runs (ch : nat) (w : World) :
  well_formed w ->
  runs (Unsubscribe ch) w (fun _ w' =>
    well_formed w' /\ (ch ∉ subscribers (mgr w')) /\
    (forall x, x ∈ subscribers (mgr w') -> x ∈ subscribers (mgr w)) /\
    logs (mgr w') = logs (mgr w) /\ maxLogs (mgr w') = maxLogs (mgr w)).
Proof.
  intros Hwf. unfold Unsubscribe. run_step. run_step.
  destruct (remove_first ch (subscribers (mgr w))) as [subs'|] eqn:Hrm.
  - destruct (remove_first_Some _ _ _ Hrm) as [Hin Hrest].
    destruct (Hrest (wf_nodup w Hwf)) as (Hnd' & Hnotin & Hsub).
    destruct (wf_open w Hwf ch Hin) as (c & Hc & Hcl).
    run_step. run_step.
    eapply runs_eq.
    { unfold close, bind, read_chan. simpl. rewrite Hc, Hcl. reflexivity. }
    simpl. split; [|split; [exact Hnotin|]; split; [exact Hsub|];
                    split; reflexivity].
    destruct Hwf as [H1 H2 H3 H4]. split; simpl; try assumption.
    intros x Hx. simpl in Hx.
    destruct (H3 x (Hsub x Hx)) as (cx & Hcx & Hclx).
    exists cx. split; [|exact Hclx]. simpl.
    rewrite list_lookup_insert_ne; [exact Hcx|].
    intros ->. contradiction.
  - run_step. split; [exact Hwf|].
    split; [now apply remove_first_None | auto].
Qed.

Lemma Subscribe_runs (w : World) :
  well_formed w ->
  runs Subscribe w (fun ch w' =>
    well_formed w' /\ (ch ∉ subscribers (mgr w)) /\
    subscribers (mgr w') = subscribers (mgr w) ++ [ch] /\
    chans w' !! ch
      = Some {| ch_buf := []; ch_cap := 100; ch_closed := false |} /\
    (forall ch', (ch' < length (chans w))%nat ->
                 chans w' !! ch' = chans w !! ch') /\
    logs (mgr w') = logs (mgr w) /\ maxLogs (mgr w') = maxLogs (mgr w)).
Proof.
  intros Hwf. unfold Subscribe. run_step.
  eapply runs_eq; [reflexivity|]. run_steps. simpl.
  assert (Hfresh : length (chans w) ∉ subscribers (mgr w)).
  { intros Hin. destruct (wf_open w Hwf _ Hin) as (c & Hc & _).
    apply lookup_lt_Some in Hc. lia. }
  split; [|split; [exact Hfresh|]].
  - destruct Hwf as [H1 H2 H3 H4]. split; simpl; try assumption.
    + intros ch Hin. simpl in Hin. apply elem_of_app in Hin as [Hin|Hin].
      * destruct (H3 ch Hin) as (c & Hc & Hcl). exists c.
        split; [now apply lookup_app_l_Some | exact Hcl].
      * apply list_elem_of_singleton in Hin as ->. eexists.
        split; [now apply list_lookup_middle | reflexivity].
    + apply NoDup_app. split; [exact H4|]. split; [|apply NoDup_singleton].
      intros x Hx Hx'. apply list_elem_of_singleton in Hx' as ->.
      contradiction.
  - split; [reflexivity|]. split; [now apply list_lookup_middle|].
    split; [|split; reflexivity].
    intros ch' Hlt. now apply lookup_app_l.
Qed.


(* ===================================================================== *)
(** * The bound of the buffer is an invariant *)
(* ===================================================================== *)

Lemma Start_rejected (os : SpawnOutcome) (w : World) :
  status (mgr w) = StatusRunning \/ status (mgr w) = StatusStarting ->
  Start os w = Ok (Some "Hugo is already running"%string) w.
Proof.
  intros H. unfold Start, bind, gets. destruct H as [-> | ->]; reflexivity.
Qed.

Lemma Stop_rejected (kill : option string) (w : World) :
  status (mgr w) = StatusStopped ->
  Stop kill w = Ok (Some "Hugo is not running"%string) w.
Proof. intros H. unfold Stop, bind, gets. now rewrite H. Qed.

Lemma steady_refl (w : World) : bounded w -> steady w w.
Proof. intros H. now split. Qed.

Lemma steady_trans (w1 w2 w3 : World) :
  steady w1 w2 -> steady w2 w3 -> steady w1 w3.
Proof. intros [_ H12] [H3 H23]. split; [exact H3 | congruence]. Qed.

(** A change that leaves buffer, capacity, subscribers and both stores
    alone. *)
Lemma steady_same_buffer (w w' : World) :
  logs (mgr w') = logs (mgr w) -> maxLogs (mgr w') = maxLogs (mgr w) ->
  subscribers (mgr w') = subscribers (mgr w) ->
  arrays w' = arrays w -> chans w' = chans w ->
  bounded w -> steady w w'.
Proof.
  intros Hl Hm Hs Ha Hc [[H1 H2 H3 H4] Hb]. split; [|exact Hm].
  split; [|now rewrite Hl, Hm].
  split; rewrite ?Hl, ?Hm, ?Hs, ?Ha; try assumption.
  intros ch Hin. rewrite Hs in Hin. rewrite Hc. now apply H3.
Qed.

Lemma logged_steady (e : LogEntry) (w w' : World) :
  well_formed w -> logged e w w' -> steady w w'.
Proof.
  intros Hwf Hlog. pose proof (logged_wf _ _ _ Hlog) as Hwf'.
  pose proof (logged_maxLogs _ _ _ Hlog) as Hmax.
  split; [|exact Hmax]. split; [exact Hwf'|].
  destruct (wf_log_view w Hwf) as (v & Hv & _).
  destruct (wf_log_view w' Hwf') as (v' & Hv' & Hlen').
  rewrite (logged_view _ _ _ Hlog v Hv) in Hv'. injection Hv' as <-.
  rewrite keep_last_length in Hlen'.
  pose proof (wf_maxLogs w Hwf). rewrite Hmax. lia.
Qed.

Lemma Start_steady (os : SpawnOutcome) (w : World) :
  bounded w -> runs (Start os) w (fun _ w' => steady w w').
Proof.
  intros Hb. pose proof Hb as [Hwf _].
  destruct (decide (status (mgr w) = StatusRunning)) as [Hr|Hr].
  { eapply runs_eq; [apply Start_rejected; now left|].
    now apply steady_refl. }
  destruct (decide (status (mgr w) = StatusStarting)) as [Hs|Hs].
  { eapply runs_eq; [apply Start_rejected; now right|].
    now apply steady_refl. }
  eapply runs_weaken; [apply (Start_runs os w Hwf Hr Hs)|].
  intros r w' (w1 & Hlog & Hwf' & _ & _ & _ & _ & _ & _ & Hl & _ & _
               & _ & _ & _ & _ & Hm).
  destruct (logged_steady _ _ _
              (wf_with_mgr (Manager_set_status StatusStarting
                              "Starting Hugo server...")
                 w eq_refl eq_refl eq_refl Hwf)
              Hlog) as [[_ Hb1] Hm1].
  simpl in Hb1, Hm1.
  split; [|exact Hm]. split; [exact Hwf'|].
  rewrite Hl, Hm. now rewrite <- Hm1.
Qed.

Lemma Stop_steady (kill : option string) (w : World) :
  bounded w -> runs (Stop kill) w (fun _ w' => steady w w').
Proof.
  intros Hb. pose proof Hb as [Hwf _].
  destruct (decide (status (mgr w) = StatusStopped)) as [Hs|Hs].
  { eapply runs_eq; [now apply Stop_rejected | now apply steady_refl]. }
  eapply runs_weaken; [apply (Stop_runs kill w Hwf Hs)|].
  intros r w' (Hwf' & _ & _ & Hview & _ & _ & _ & _ & _ & _ & _ & _ & Hm).
  split; [|exact Hm]. split; [exact Hwf'|].
  destruct (wf_log_view w Hwf) as (v & Hv & _).
  destruct (wf_log_view w' Hwf') as (v' & Hv' & Hlen').
  rewrite (Hview v Hv) in Hv'. injection Hv' as <-.
  rewrite keep_last_length in Hlen'.
  pose proof (wf_maxLogs w Hwf). rewrite Hm. lia.
Qed.

Lemma addLog_steady (message logType : string) (w : World) :
  bounded w -> runs (addLog message logType) w (fun _ w' => steady w w').
Proof.
  intros [Hwf _].
  eapply runs_weaken; [now apply addLog_logged|].
  intros [] w' Hlog. now apply (logged_steady _ _ _ Hwf Hlog).
Qed.

Lemma Restart_steady (kill : option string) (os : SpawnOutcome)
  (w : World) :
  bounded w -> runs (Restart kill os) w (fun _ w' => steady w w').
Proof.
  intros Hb. unfold Restart. run_step.
  eapply runs_weaken; [now apply addLog_steady|].
  intros [] w1 Hs1. pose proof Hs1 as [Hb1 _].
  run_step. run_step. run_step.
  destruct (bool_decide_reflect (status (mgr w1) = StatusStopped))
    as [Hst|Hst]; simpl.
  - run_step.
    eapply runs_weaken; [now apply Start_steady|].
    intros r w' Hs'. now apply (steady_trans w w1 w').
  - run_step.
    eapply runs_weaken; [now apply Stop_steady|].
    intros [err|] w2 Hs2; run_steps;
      [now apply (steady_trans w w1 w2)|].
    pose proof Hs2 as [Hb2 _].
    set (w3 := with_now _ _).
    assert (Hs3 : steady w2 w3)
      by (now apply steady_same_buffer).
    eapply runs_weaken; [apply Start_steady, Hs3|].
    intros r w' Hs'.
    apply (steady_trans w w1 w'); [exact Hs1|].
    apply (steady_trans w1 w2 w'); [exact Hs2|].
    now apply (steady_trans w2 w3 w').
Qed.

Lemma GetLogs_well_formed (limit : Z) (w : World) :
  well_formed w ->
  runs (GetLogs limit) w (fun _ w' => well_formed w' /\ mgr w' = mgr w).
Proof.
  intros Hwf. destruct (wf_log_view w Hwf) as (v & Hv & _).
  eapply runs_weaken; [apply (GetLogs_runs limit w v Hwf Hv)|].
  intros r w' (Hw' & _ & _ & Hsame & _).
  pose proof (wf_logs w Hwf) as (a & Ha & Hcap).
  pose proof (lookup_lt_Some _ _ _ Ha) as Hlt.
  assert (Hmgr : mgr w' = mgr w) by (now rewrite Hw').
  assert (Hchans : chans w' = chans w) by (now rewrite Hw').
  split; [|exact Hmgr].
  destruct Hwf as [H1 H2 H3 H4]. split; rewrite ?Hmgr; try assumption.
  - exists a. split; [|exact Hcap]. now rewrite Hsame.
  - intros ch Hin. rewrite Hmgr in Hin. rewrite Hchans. now apply H3.
Qed.

Lemma Start_wait_steady (exit : option string) (w : World) :
  bounded w -> runs (Start_wait exit) w (fun _ w' => steady w w').
Proof.
  intros Hb. unfold Start_wait.
  destruct exit as [err|]; run_step;
    (eapply runs_weaken; [now apply addLog_steady|]);
    intros [] w1 Hs1; pose proof Hs1 as [Hb1 _]; run_steps;
    (apply (steady_trans w w1); [exact Hs1|]);
    now apply steady_same_buffer.
Qed.

Lemma streamLogs_line_steady (line logType : string) (w : World) :
  bounded w -> runs (streamLogs_line line logType) w
                 (fun _ w' => steady w w').
Proof.
  intros Hb. unfold streamLogs_line. run_step.
  eapply runs_weaken; [now apply addLog_steady|].
  intros [] w1 Hs1. pose proof Hs1 as [Hb1 _].
  destruct (_ && _); run_steps; [|exact Hs1].
  apply (steady_trans w w1); [exact Hs1|].
  now apply steady_same_buffer.
Qed.

Lemma Start_graceTimer_steady (w : World) :
  bounded w -> runs Start_graceTimer w (fun _ w' => steady w w').
Proof.
  intros Hb. unfold Start_graceTimer. run_steps.
  destruct (bool_decide _); run_steps; now apply steady_same_buffer.
Qed.

(** Whatever happens to a world whose buffer is within its bound, the
    call returns, the world stays well formed and the buffer stays within
    the same bound. *)
Lemma run_call_steady (c : Call) (w : World) :
  bounded w -> runs (run_call c) w (fun _ w' => steady w w').
Proof.
  intros Hb. pose proof Hb as [Hwf Hlen]. destruct c; simpl.
  - run_step. eapply runs_weaken; [now apply Start_steady|].
    intros r w' H. now apply runs_ret.
  - run_step. eapply runs_weaken; [now apply Stop_steady|].
    intros r w' H. now apply runs_ret.
  - run_step. eapply runs_weaken; [now apply Restart_steady|].
    intros r w' H. now apply runs_ret.
  - unfold GetStatus. run_steps. now apply steady_refl.
  - run_step. eapply runs_weaken; [now apply GetLogs_well_formed|].
    intros r w' [Hwf' Hmgr]. apply runs_ret.
    split; [|now rewrite Hmgr]. split; [exact Hwf' | now rewrite Hmgr].
  - run_step. eapply runs_weaken; [now apply Subscribe_runs|].
    intros r w' (Hwf' & _ & _ & _ & _ & Hl & Hm). apply runs_ret.
    split; [|exact Hm]. split; [exact Hwf' | now rewrite Hl, Hm].
  - eapply runs_weaken; [now apply Unsubscribe_runs|].
    intros r w' (Hwf' & _ & _ & Hl & Hm).
    split; [|exact Hm]. split; [exact Hwf' | now rewrite Hl, Hm].
  - now apply Start_graceTimer_steady.
  - now apply Start_wait_steady.
  - now apply streamLogs_line_steady.
  - run_step. now apply steady_same_buffer.
Qed.

(** In every world a manager made by [NewManager] reaches, whatever the
    calls and the steps of its goroutines were, no call has panicked and
    the buffer holds at most 1000 entries. *)
Lemma history_bounded (dir : string) (cfg : HugoConfig)
  (history : list Call) :
  runs (for_range history run_call) (NewManager dir cfg)
    (fun _ w =>
       well_formed w /\ maxLogs (mgr w) = 1000 /\
       exists v, log_view w = Some v /\ (length v <= 1000)%nat).
Proof.
  assert (H : forall w, bounded w ->
                        runs (for_range history run_call) w
                          (fun _ w' => steady w w')).
  { induction history as [|c history IH]; intros w Hb; simpl.
    - apply runs_ret. now apply steady_refl.
    - run_step. eapply runs_weaken; [now apply run_call_steady|].
      intros [] w1 Hs1. eapply runs_weaken; [apply IH, Hs1|].
      intros [] w' Hs'. now apply (steady_trans w w1 w'). }
  eapply runs_weaken.
  { apply H. split; [apply wf_NewManager | simpl; lia]. }
  intros [] w [[Hwf Hb] Hm]. simpl in Hm.
  split; [exact Hwf|]. split; [exact Hm|].
  destruct (wf_log_view w Hwf) as (v & Hv & Hlen).
  exists v. split; [exact Hv|]. rewrite Hm in Hb. lia.
Qed.

(* ===================================================================== *)
(** * The claims *)
(* ===================================================================== *)

(** C1. While the status is [running] or [starting], [Start] returns the
    error "Hugo is already running" and the world it returns is the world
    it was called in: status, status message, log buffer, subscribers,
    goroutines and the requests made to the operating system are all as
    before, so no process is spawned.  While the status is [stopped],
    [Stop] returns the error "Hugo is not running" and likewise leaves
    the world as it was. *)
Theorem Start_Stop_rejected_without_effect
  (w : World) (os : SpawnOutcome) (kill : option string) :
  (status (mgr w) = StatusRunning \/ status (mgr w) = StatusStarting ->
   Start os w = Ok (Some "Hugo is already running"%string) w) /\
  (status (mgr w) = StatusStopped ->
   Stop kill w = Ok (Some "Hugo is not running"%string) w).
Proof.
  split; [apply Start_rejected | apply Stop_rejected].
Qed.

(** C2.  The manager is constructed with an empty buffer and capacity
    1000.  After any run of appends from there the buffer holds at most
    1000 entries, namely the last 1000 of those appended, in the order of
    their arrival; and once 1000 + k entries were appended, with k > 0,
    [GetLogs(0)] returns exactly the 1000 most recent ones, oldest
    first.  The bound also holds in every world the manager reaches by
    any history of calls and goroutine steps, all of which append through
    [addLog]. *)
Theorem log_buffer_never_exceeds_capacity
  (dir : string) (cfg : HugoConfig) (es : list LogEntry)
  (history : list Call) :
  maxLogs (mgr (NewManager dir cfg)) = 1000 /\
  log_view (NewManager dir cfg) = Some [] /\
  (exists w' v,
     appends es (NewManager dir cfg) = Ok tt w' /\
     log_view w' = Some v /\
     (length v <= 1000)%nat /\
     v = keep_last 1000 es /\
     forall k, (0 < k)%nat -> length es = (1000 + k)%nat ->
       exists r w'',
         GetLogs 0 w' = Ok r w'' /\
         slice_view (arrays w'') r = Some (drop k es) /\
         length (drop k es) = 1000%nat) /\
  (exists w v,
     for_range history run_call (NewManager dir cfg) = Ok tt w /\
     log_view w = Some v /\ (length v <= 1000)%nat).
Proof.
  split; [reflexivity|]. split; [reflexivity|]. split.
  - destruct (appends_runs es (NewManager dir cfg) [])
      as ([] & w' & Hrun & Hwf & Hview & _);
      [apply wf_NewManager | reflexivity |].
    assert (Hv : log_view w' = Some (keep_last 1000 es)).
    { rewrite Hview. destruct es; reflexivity. }
    exists w', (keep_last 1000 es).
    split; [exact Hrun|]. split; [exact Hv|].
    split; [rewrite keep_last_length; lia|]. split; [reflexivity|].
    intros k Hk Hlen.
    destruct (GetLogs_runs 0 w' _ Hwf Hv)
      as (r & w'' & Hget & _ & _ & _ & _ & Hr).
    exists r, w''. split; [exact Hget|].
    assert (Hdrop : keep_last 1000 es = drop k es).
    { unfold keep_last. f_equal. lia. }
    split; [|rewrite length_drop; lia].
    rewrite Hr. unfold recent. simpl. now rewrite Hdrop.
  - destruct (history_bounded dir cfg history)
      as ([] & w & Hrun & _ & _ & v & Hv & Hlen).
    exists w, v. auto.
Qed.

(** C6. In a well-formed world [addLog] returns (it neither panics nor
    waits for anyone): the entry is appended to the buffer, then every
    subscribed channel with room in its queue has the entry added at the
    end of the queue, every subscribed channel whose queue is full is
    left exactly as it was (the entry is dropped for it and not kept
    for later), and channels that are not subscribed are not touched.
    The capacity of a channel is 100, fixed when [Subscribe] makes it. *)
Theorem addLog_offers_entry_without_blocking
  (w : World) (message logType : string) :
  well_formed w ->
  (exists w',
     addLog message logType w = Ok tt w' /\ well_formed w' /\
     (forall v, log_view w = Some v ->
        log_view w'
          = Some (keep_last (Z.to_nat (maxLogs (mgr w)))
                    (v ++ [entry_at w message logType]))) /\
     subscribers (mgr w') = subscribers (mgr w) /\
     length (chans w') = length (chans w) /\
     forall ch c, chans w !! ch = Some c ->
       (ch ∈ subscribers (mgr w) ->
        (length (ch_buf c) < ch_cap c)%nat ->
        chans w' !! ch
          = Some {| ch_buf := ch_buf c ++ [entry_at w message logType];
                    ch_cap := ch_cap c; ch_closed := ch_closed c |}) /\
       (ch ∈ subscribers (mgr w) ->
        (ch_cap c <= length (ch_buf c))%nat ->
        chans w' !! ch = Some c) /\
       (ch ∉ subscribers (mgr w) -> chans w' !! ch = Some c)) /\
  (exists ch w',
     Subscribe w = Ok ch w' /\ well_formed w' /\
     (ch ∉ subscribers (mgr w)) /\
     subscribers (mgr w') = subscribers (mgr w) ++ [ch] /\
     chans w' !! ch
       = Some {| ch_buf := []; ch_cap := 100; ch_closed := false |}).
Proof.
  intros Hwf. split.
  - destruct (addLog_logged message logType w Hwf) as ([] & w' & Hrun & Hlog).
    exists w'. split; [exact Hrun|]. split; [apply (logged_wf _ _ _ Hlog)|].
    split; [apply (logged_view _ _ _ Hlog)|].
    split; [apply (logged_subscribers _ _ _ Hlog)|].
    rewrite (logged_chans _ _ _ Hlog).
    split; [apply broadcast_length|].
    intros ch c Hc. split; [|split].
    + intros Hin Hroom.
      rewrite (broadcast_lookup_sub _ _ _ _ c (wf_nodup w Hwf) Hin Hc).
      unfold offer. now destruct (Nat.ltb_spec (length (ch_buf c)) (ch_cap c));
        [|lia].
    + intros Hin Hfull.
      rewrite (broadcast_lookup_sub _ _ _ _ c (wf_nodup w Hwf) Hin Hc).
      unfold offer. now destruct (Nat.ltb_spec (length (ch_buf c)) (ch_cap c));
        [lia|].
    + intros Hnotin. now rewrite broadcast_lookup_other.
  - destruct (Subscribe_runs w Hwf)
      as (ch & w' & Hrun & Hwf' & Hfresh & Hsubs & Hch & _).
    exists ch, w'. auto.
Qed.

Lemma recent_suffix (limit : Z) (v : list LogEntry) :
  exists older, v = older ++ recent limit v.
Proof.
  unfold recent. destruct (_ && _).
  - exists (take (length v - Z.to_nat limit) v). unfold keep_last.
    now rewrite take_drop.
  - now exists [].
Qed.

(** C7. From a buffer that holds the entries [v], [GetLogs limit]
    returns the last [limit] entries of [v] when [0 < limit <= len(v)]
    and all of [v] when [limit <= 0] or [limit > len(v)], in the order
    they have in [v] (oldest first).  The result lives in an array of its
    own, not in the array of the buffer: the manager and its buffer are as
    before, and whatever is appended afterwards, the returned slice still
    holds the same entries. *)
Theorem GetLogs_returns_recent_snapshot
  (w : World) (v : list LogEntry) (limit : Z) :
  well_formed w -> log_view w = Some v ->
  exists r w1,
    GetLogs limit w = Ok r w1 /\
    slice_view (arrays w1) r = Some (recent limit v) /\
    (0 < limit <= Z.of_nat (length v) ->
     recent limit v = keep_last (Z.to_nat limit) v /\
     length (recent limit v) = Z.to_nat limit) /\
    (limit <= 0 \/ limit > Z.of_nat (length v) -> recent limit v = v) /\
    (exists older, v = older ++ recent limit v) /\
    mgr w1 = mgr w /\ log_view w1 = Some v /\
    s_arr r <> s_arr (logs (mgr w1)) /\
    forall es, exists w2,
      appends es w1 = Ok tt w2 /\
      slice_view (arrays w2) r = Some (recent limit v).
Proof.
  intros Hwf Hv.
  destruct (GetLogs_runs limit w v Hwf Hv)
    as (r & w1 & Hrun & Hw1 & Hfresh & Hlen & Hsame & Hr).
  pose proof (wf_logs w Hwf) as (a & Ha & Hcap).
  pose proof (lookup_lt_Some _ _ _ Ha) as Hlt.
  assert (Hmgr : mgr w1 = mgr w) by (now rewrite Hw1).
  pose proof (runs_inv _ _ _ _ _ (GetLogs_well_formed limit w Hwf) Hrun)
    as [Hwf1 _].
  assert (Hv1 : log_view w1 = Some v).
  { unfold log_view, slice_view in *. rewrite Hmgr.
    now rewrite Hsame. }
  exists r, w1. split; [exact Hrun|]. split; [exact Hr|].
  split; [|split; [|split; [apply recent_suffix|]]].
  - intros [Hpos Hle]. unfold recent.
    destruct (Z.ltb_spec 0 limit) as [_|?]; [|lia].
    destruct (Z.leb_spec limit (Z.of_nat (length v))) as [_|?]; [|lia].
    simpl. split; [reflexivity|]. rewrite keep_last_length. lia.
  - intros Hout. unfold recent.
    destruct (Z.ltb_spec 0 limit) as [Hpos|Hneg]; [|reflexivity].
    destruct (Z.leb_spec limit (Z.of_nat (length v))) as [?|_]; [lia|].
    reflexivity.
  - split; [exact Hmgr|]. split; [exact Hv1|].
    split; [rewrite Hmgr, Hfresh; lia|].
    intros es.
    destruct (appends_runs es w1 v Hwf1 Hv1)
      as ([] & w2 & Hrun2 & _ & _ & _ & _ & Hother).
    exists w2. split; [exact Hrun2|].
    rewrite <- Hr. unfold slice_view.
    rewrite Hother; [reflexivity | lia | rewrite Hmgr, Hfresh; lia].
Qed.


(** C4. When the operating system fails to launch the process (a pipe
    cannot be made or [cmd.Start] fails) with the message [err], [Start]
    returns [err], the status is [error] and the status message is the
    fixed introduction of that step followed by [err]; no goroutine is
    launched, so neither reader, nor the exit waiter, nor the timer runs;
    and the operating system is asked to launch the process at most once,
    so nothing is retried. *)
Theorem Start_spawn_failure_is_reported
  (w : World) (os : SpawnOutcome) (intro err : string) :
  well_formed w ->
  status (mgr w) <> StatusRunning -> status (mgr w) <> StatusStarting ->
  failure_of os = Some (intro, err) ->
  exists w',
    Start os w = Ok (Some err) w' /\
    status (mgr w') = StatusError /\
    statusMsg (mgr w') = intro +:+ err /\
    is_substring err (statusMsg (mgr w')) /\
    goroutines w' = goroutines w /\
    (os_trace w' = os_trace w \/
     os_trace w' = os_trace w ++ [EvStart (hugo_cmd (mgr w))]) /\
    well_formed w'.
Proof.
  intros Hwf Hrun Hstarting Hfail.
  destruct (Start_runs os w Hwf Hrun Hstarting)
    as (r & w' & Hstart & w1 & _ & Hwf' & Hr & _ & Hst & Hmsg & Hgo
        & Htrace & _).
  rewrite Hfail in *. simpl in *. subst r.
  exists w'. split; [exact Hstart|]. split; [exact Hst|].
  split; [exact Hmsg|].
  split; [rewrite Hmsg; exists intro, ""%string; f_equal;
          clear; induction err as [|c err IH];
          [reflexivity | rewrite append_cons; now rewrite <- IH]|].
  split; [now rewrite Hgo, app_nil_r|]. split; [|exact Hwf'].
  rewrite Htrace. destruct (asks_launch os);
    [now right | left; apply app_nil_r].
Qed.

(** C5. When the status is not [stopped], [Stop] appends the system
    entry "Stopping Hugo server..." to the log and asks the operating
    system to kill the process of the manager, if it has one.  When the
    kill succeeds (or there is no process to kill) [Stop] returns no
    error and the status is [stopped] with an empty message.  When the
    kill fails with [err], [Stop] returns [err] and status and status
    message are what they were before the call. *)
Theorem Stop_kills_and_keeps_status_on_failure
  (w : World) (kill : option string) :
  well_formed w -> status (mgr w) <> StatusStopped ->
  exists r w',
    Stop kill w = Ok r w' /\ well_formed w' /\
    (forall v, log_view w = Some v ->
       log_view w'
         = Some (keep_last (Z.to_nat (maxLogs (mgr w)))
                   (v ++ {| Time := now w;
                            Message := "Stopping Hugo server...";
                            Type_ := "system" |}
                      :: match r with
                         | Some err =>
                             [{| Time := now w;
                                 Message := "Error stopping Hugo: " +:+ err;
                                 Type_ := "system" |}]
                         | None => []
                         end))) /\
    (forall pid, kill_target (mgr w) = Some pid ->
       os_trace w' = os_trace w ++ [EvKill pid]) /\
    (kill_target (mgr w) = None -> os_trace w' = os_trace w /\ r = None) /\
    (kill = None -> r = None) /\
    (r = None ->
       status (mgr w') = StatusStopped /\ statusMsg (mgr w') = ""%string) /\
    (forall pid err,
       kill_target (mgr w) = Some pid -> kill = Some err ->
       r = Some err /\
       status (mgr w') = status (mgr w) /\
       statusMsg (mgr w') = statusMsg (mgr w)).
Proof.
  intros Hwf Hst.
  destruct (Stop_runs kill w Hwf Hst)
    as (r & w' & Hstop & Hwf' & Hr & Htrace & Hview & Hstatus & Hmsg & _).
  exists r, w'. split; [exact Hstop|]. split; [exact Hwf'|].
  split; [exact Hview|].
  split; [intros pid Hpid; now rewrite Htrace, Hpid|].
  split; [intros Hnone; rewrite Htrace, Hr, Hnone; split;
          [apply app_nil_r | reflexivity]|].
  split; [intros ->; rewrite Hr; now destruct (kill_target (mgr w))|].
  split; [intros ->; auto|].
  intros pid err Hpid ->. rewrite Hpid in Hr. subst r. auto.
Qed.

(** C9. The timer goroutine of [Start] sleeps and then looks at the
    status.  If the status is [starting] at that moment it becomes
    [running] with the message "Running on port " followed by the
    configured port; otherwise the manager is left exactly as it is.  In
    particular, once a line of the server's banner has made [streamLogs]
    set the status, or once the exit waiter has recorded the end of the
    process, the timer changes neither the status nor the message. *)
Theorem graceTimer_promotes_only_from_starting (w : World) :
  (exists w',
     Start_graceTimer w = Ok tt w' /\
     (status (mgr w) = StatusStarting ->
      status (mgr w') = StatusRunning /\
      statusMsg (mgr w')
        = "Running on port " +:+ Sprintf_d (Port (config (mgr w)))) /\
     (status (mgr w) <> StatusStarting -> mgr w' = mgr w) /\
     logs (mgr w') = logs (mgr w) /\ cmd (mgr w') = cmd (mgr w) /\
     subscribers (mgr w') = subscribers (mgr w) /\
     arrays w' = arrays w /\ chans w' = chans w /\
     goroutines w' = goroutines w) /\
  (forall line,
     well_formed w ->
     contains line "Web Server is available" = true \/
     contains line "Serving pages from" = true ->
     exists w1 w2,
       streamLogs_line line "stdout" w = Ok tt w1 /\
       status (mgr w1) = StatusRunning /\
       Start_graceTimer w1 = Ok tt w2 /\ mgr w2 = mgr w1) /\
  (forall exit,
     well_formed w ->
     exists w1 w2,
       Start_wait exit w = Ok tt w1 /\
       status (mgr w1) = (if exit is Some _ then StatusError
                          else StatusStopped) /\
       Start_graceTimer w1 = Ok tt w2 /\ mgr w2 = mgr w1).
Proof.
  assert (Htimer : forall w0,
             status (mgr w0) <> StatusStarting ->
             exists w2, Start_graceTimer w0 = Ok tt w2 /\ mgr w2 = mgr w0).
  { intros w0 Hne. unfold Start_graceTimer, bind, time_Sleep, modify, gets.
    simpl. destruct (status (mgr w0)); try congruence; simpl;
      eexists; split; reflexivity. }
  split; [|split].
  - unfold Start_graceTimer, bind, time_Sleep, modify, gets. simpl.
    destruct (status (mgr w)) eqn:Hst; simpl; eexists;
      (split; [reflexivity|]); simpl;
      repeat split; try reflexivity; try congruence; intros; congruence.
  - intros line Hwf Hready.
    assert (Hrun : runs (streamLogs_line line "stdout") w
                     (fun _ w1 => status (mgr w1) = StatusRunning)).
    { unfold streamLogs_line. run_step. run_addLog w1 Hlog; [exact Hwf|].
      replace (contains line "Web Server is available"
               || contains line "Serving pages from") with true
        by (destruct Hready as [-> | ->];
            [reflexivity | now rewrite orb_true_r]).
      simpl. run_steps. reflexivity. }
    destruct Hrun as ([] & w1 & Hline & Hst).
    destruct (Htimer w1) as (w2 & Ht & Hm); [congruence|].
    exists w1, w2. auto.
  - intros exit Hwf.
    assert (Hrun : runs (Start_wait exit) w
                     (fun _ w1 => status (mgr w1)
                                  = (if exit is Some _ then StatusError
                                     else StatusStopped))).
    { unfold Start_wait. destruct exit as [err|]; run_step;
        (run_addLog w1 Hlog; [exact Hwf|]); run_steps; reflexivity. }
    destruct Hrun as ([] & w1 & Hwait & Hst).
    destruct (Htimer w1) as (w2 & Ht & Hm);
      [rewrite Hst; destruct exit; congruence|].
    exists w1, w2. auto.
Qed.

(** C3, as the code has it.  [Restart] first appends the system entry
    "Restarting Hugo server...".  When the status is [stopped] it goes
    on with [Start] at once.  Otherwise it calls [Stop]: if [Stop] fails,
    [Restart] returns that failure there and then, in the world [Stop]
    left, without sleeping and without calling [Start]; if [Stop]
    succeeds, [Restart] sleeps 500 milliseconds and then calls [Start],
    whose result it returns. *)
Theorem Restart_stops_then_starts_unless_Stop_fails
  (w : World) (kill : option string) (os : SpawnOutcome) :
  well_formed w ->
  exists w1,
    addLog "Restarting Hugo server..." "system" w = Ok tt w1 /\
    (status (mgr w) = StatusStopped -> Restart kill os w = Start os w1) /\
    (status (mgr w) <> StatusStopped ->
     exists r w2,
       Stop kill w1 = Ok r w2 /\
       (forall e, r = Some e -> Restart kill os w = Ok (Some e) w2) /\
       (r = None ->
        exists w3 r' w',
          time_Sleep (500 * Millisecond) w2 = Ok tt w3 /\
          os_trace w3 = os_trace w2 ++ [EvSleep 500000000] /\
          Start os w3 = Ok r' w' /\
          Restart kill os w = Ok r' w')).
Proof.
  intros Hwf.
  destruct (addLog_logged "Restarting Hugo server..." "system" w Hwf)
    as ([] & w1 & Hlog1 & Hlog).
  pose proof (logged_status _ _ _ Hlog) as Hst1.
  pose proof (logged_wf _ _ _ Hlog) as Hwf1.
  exists w1. split; [exact Hlog1|]. split.
  - intros Hst. unfold Restart, bind at 1. rewrite Hlog1.
    unfold bind, gets. rewrite Hst1, Hst. reflexivity.
  - intros Hst. rewrite <- Hst1 in Hst.
    destruct (Stop_runs kill w1 Hwf1 Hst)
      as (r & w2 & Hstop & Hwf2 & _ & _ & _ & Hstatus & _).
    exists r, w2. split; [exact Hstop|].
    assert (Hunfold : Restart kill os w =
              match r with
              | Some e => Ok (Some e) w2
              | None =>
                  Start os (with_now (fun t => t + 500 * Millisecond)
                              (with_os_trace
                                 (fun tr => tr ++ [EvSleep (500 * Millisecond)])
                                 w2))
              end).
    { unfold Restart, bind at 1. rewrite Hlog1.
      unfold bind at 1, gets at 1.
      destruct (bool_decide_reflect (status (mgr w1) = StatusStopped))
        as [?|_]; [contradiction|].
      simpl. unfold bind at 1. unfold bind at 1. rewrite Hstop.
      now destruct r. }
    split.
    + intros e ->. exact Hunfold.
    + intros ->. simpl in Hstatus.
      eexists. 
      destruct (Start_runs os
                  (with_now (fun t => t + 500 * Millisecond)
                     (with_os_trace
                        (fun tr => tr ++ [EvSleep (500 * Millisecond)]) w2)))
        as (r' & w' & Hstart & _).
      { now apply wf_with_now, wf_with_os_trace. }
      { simpl. rewrite Hstatus. congruence. }
      { simpl. rewrite Hstatus. congruence. }
      exists r', w'. split; [reflexivity|]. split; [reflexivity|].
      split; [exact Hstart|]. now rewrite Hunfold.
Qed.

(* ===================================================================== *)
(** * Subscribers *)
(* ===================================================================== *)



Lemma filter_other_id (ch : nat) (l : list nat) :
  ch ∉ l -> filter (fun x => x <> ch) l = l.
Proof.
  induction l as [|x l IH]; intros Hnotin; [reflexivity|].
  apply not_elem_of_cons in Hnotin as [Hne Hnotin].
  rewrite filter_cons_True by congruence. now rewrite IH.
Qed.

Lemma remove_first_filter (ch : nat) (subs : list nat) :
  NoDup subs -> ch ∈ subs ->
  remove_first ch subs = Some (filter (fun x => x <> ch) subs).
Proof.
  induction subs as [|sub rest IH]; intros Hnd Hin.
  - now apply elem_of_nil in Hin.
  - apply NoDup_cons in Hnd as [Hnotin Hnd]. simpl.
    destruct (bool_decide_reflect (sub = ch)) as [->|Hne].
    + rewrite filter_cons_False by (intros H; now apply H).
      now rewrite filter_other_id.
    + apply elem_of_cons in Hin as [->|Hin]; [congruence|].
      rewrite (IH Hnd Hin). now rewrite filter_cons_True.
Qed.

Lemma remove_first_absent (ch : nat) (subs : list nat) :
  ch ∉ subs -> remove_first ch subs = None.
Proof.
  induction subs as [|sub rest IH]; intros Hnotin; [reflexivity|].
  apply not_elem_of_cons in Hnotin as [Hne Hnotin]. simpl.
  destruct (bool_decide_reflect (sub = ch)) as [->|_]; [congruence|].
  now rewrite IH.
Qed.



(** X3. [Unsubscribe] of a subscribed channel closes that channel, keeps
    what is queued in it, and takes it out of the subscribers; the other
    subscribers stay in their order, and nothing else in the world
    changes. *)
Theorem Unsubscribe_closes_and_removes (w : World) (ch : nat) (c : Chan) :
  well_formed w -> ch ∈ subscribers (mgr w) -> chans w !! ch = Some c ->
  exists w',
    Unsubscribe ch w = Ok tt w' /\ well_formed w' /\
    subscribers (mgr w') = filter (fun x => x <> ch) (subscribers (mgr w)) /\
    chans w' !! ch
      = Some {| ch_buf := ch_buf c; ch_cap := ch_cap c;
                ch_closed := true |} /\
    (forall ch', ch' <> ch -> chans w' !! ch' = chans w !! ch') /\
    logs (mgr w') = logs (mgr w) /\ status (mgr w') = status (mgr w) /\
    statusMsg (mgr w') = statusMsg (mgr w) /\ cmd (mgr w') = cmd (mgr w) /\
    arrays w' = arrays w /\ goroutines w' = goroutines w /\
    os_trace w' = os_trace w.
Proof.
  intros Hwf Hin Hc.
  destruct (Unsubscribe_runs ch w Hwf) as ([] & w' & Hrun & Hwf' & _).
  exists w'. split; [exact Hrun|]. split; [exact Hwf'|].
  destruct (wf_open w Hwf ch Hin) as (c0 & Hc0 & Hopen).
  assert (c0 = c) by congruence. subst c0.
  unfold Unsubscribe, bind, gets in Hrun.
  rewrite (remove_first_filter ch _ (wf_nodup w Hwf) Hin) in Hrun.
  unfold modify, close, bind, read_chan in Hrun. simpl in Hrun.
  rewrite Hc, Hopen in Hrun. injection Hrun as <-. simpl.
  split; [reflexivity|]. split.
  { apply list_lookup_insert_eq. now apply lookup_lt_Some in Hc. }
  split; [|repeat split; reflexivity].
  intros ch' Hne. now apply list_lookup_insert_ne.
Qed.

(** X4. [Unsubscribe] never closes a channel twice: for a channel that is
    not subscribed (never was, or was unsubscribed already) it returns
    without changing anything, so calling it again after any call is
    harmless. *)
Theorem Unsubscribe_is_idempotent (w : World) (ch : nat) :
  well_formed w ->
  (ch ∉ subscribers (mgr w) -> Unsubscribe ch w = Ok tt w) /\
  exists w', Unsubscribe ch w = Ok tt w' /\ Unsubscribe ch w' = Ok tt w'.
Proof.
  intros Hwf.
  assert (Hnoop : forall w0, ch ∉ subscribers (mgr w0) ->
                             Unsubscribe ch w0 = Ok tt w0).
  { intros w0 Hnotin. unfold Unsubscribe, bind, gets.
    now rewrite (remove_first_absent _ _ Hnotin). }
  split; [apply Hnoop|].
  destruct (Unsubscribe_runs ch w Hwf) as ([] & w' & Hrun & _ & Hgone & _).
  exists w'. split; [exact Hrun | now apply Hnoop].
Qed.

(** X5. Subscribing and then unsubscribing the channel obtained gives the
    manager back as it was: the same subscribers in the same order, the
    same buffer and status.  What remains is the closed, empty channel in
    the store. *)
Theorem Subscribe_Unsubscribe_round_trip (w : World) :
  well_formed w ->
  exists ch w1 w2,
    Subscribe w = Ok ch w1 /\ Unsubscribe ch w1 = Ok tt w2 /\
    mgr w2 = mgr w /\ arrays w2 = arrays w /\
    chans w2 = chans w ++ [{| ch_buf := []; ch_cap := 100;
                              ch_closed := true |}].
Proof.
  intros Hwf.
  destruct (Subscribe_runs w Hwf)
    as (ch & w1 & Hsub & Hwf1 & Hfresh & Hsubs & Hch & _).
  assert (Hin : ch ∈ subscribers (mgr w1)).
  { rewrite Hsubs. apply elem_of_app. right. apply list_elem_of_here. }
  exists ch, w1.
  unfold Subscribe, bind, make_chan, modify, ret in Hsub.
  injection Hsub as <- <-. eexists. split; [reflexivity|].
  unfold Unsubscribe, bind, gets.
  rewrite (remove_first_filter _ _ (wf_nodup _ Hwf1) Hin). simpl.
  rewrite filter_app, (filter_other_id _ _ Hfresh).
  rewrite filter_cons_False by (intros H; now apply H).
  rewrite filter_nil, app_nil_r.
  unfold modify, close, bind, read_chan. simpl.
  rewrite list_lookup_middle by reflexivity. simpl.
  split; [reflexivity|]. simpl.
  split; [now destruct (mgr w)|]. split; [reflexivity|].
  rewrite insert_app_r_alt by lia. now rewrite Nat.sub_diag.
Qed.

(* ===================================================================== *)
(** * Starting, restarting and the end of the process *)
(* ===================================================================== *)





Lemma Start_wait_runs (exit : option string) (w : World) :
  well_formed w ->
  runs (Start_wait exit) w (fun _ w' =>
    exists w1,
      logged (entry_at w (match exit with
                          | Some err => "Hugo exited with error: " +:+ err
                          | None => "Hugo server stopped"
                          end) "system") w w1 /\
      w' = with_mgr (Manager_set_status
                       (if exit is Some _ then StatusError
                        else StatusStopped)
                       (if exit is Some err then err else ""%string)) w1).
Proof.
  intros Hwf. unfold Start_wait.
  destruct exit as [err|]; run_step; (run_addLog w1 Hlog; [exact Hwf|]);
    run_steps; exists w1; split; [exact Hlog | reflexivity
                                | exact Hlog | reflexivity].
Qed.

(** X8. When the process ends, the exit waiter appends one system entry
    to the log and sets the status whatever it was before: [error] with
    the message of the error when [Wait] reports one, [stopped] with an
    empty message otherwise.  It asks nothing of the operating system,
    launches nothing, and leaves the command of the ended process in the
    manager. *)
Theorem exit_waiter_records_the_exit (w : World) (exit : option string) :
  well_formed w ->
  exists w',
    Start_wait exit w = Ok tt w' /\ well_formed w' /\
    status (mgr w')
      = (if exit is Some _ then StatusError else StatusStopped) /\
    statusMsg (mgr w') = (if exit is Some err then err else ""%string) /\
    (forall v, log_view w = Some v ->
       log_view w'
         = Some (keep_last (Z.to_nat (maxLogs (mgr w)))
                   (v ++ [{| Time := now w;
                             Message :=
                               match exit with
                               | Some err =>
                                   "Hugo exited with error: " +:+ err
                               | None => "Hugo server stopped"%string
                               end;
                             Type_ := "system" |}]))) /\
    cmd (mgr w') = cmd (mgr w) /\ goroutines w' = goroutines w /\
    os_trace w' = os_trace w.
Proof.
  intros Hwf.
  destruct (Start_wait_runs exit w Hwf) as ([] & w' & Hrun & w1 & Hlog & ->).
  exists (with_mgr (Manager_set_status
                      (if exit is Some _ then StatusError else StatusStopped)
                      (if exit is Some err then err else ""%string)) w1).
  split; [exact Hrun|].
  split; [apply wf_with_mgr; try reflexivity; apply (logged_wf _ _ _ Hlog)|].
  split; [reflexivity|]. split; [reflexivity|].
  split; [intros v Hv; apply (logged_view _ _ _ Hlog v Hv)|]. simpl.
  split; [apply (logged_cmd _ _ _ Hlog)|].
  split; [apply (logged_goroutines _ _ _ Hlog)
         | apply (logged_os_trace _ _ _ Hlog)].
Qed.

Lemma Start_graceTimer_status (w : World) :
  exists w',
    Start_graceTimer w = Ok tt w' /\
    (mgr w' = mgr w \/
     status (mgr w) = StatusStarting /\
     mgr w' = Manager_set_status StatusRunning
                ("Running on port " +:+ Sprintf_d (Port (config (mgr w))))
                (mgr w)) /\
    arrays w' = arrays w /\ chans w' = chans w /\
    (well_formed w -> well_formed w').
Proof.
  unfold Start_graceTimer, bind, time_Sleep, modify, gets. simpl.
  destruct (bool_decide_reflect (status (mgr w) = StatusStarting))
    as [Hst|Hst]; simpl; eexists; (split; [reflexivity|]); simpl.
  - split; [right; split; [exact Hst | reflexivity]|].
    split; [reflexivity|]. split; [reflexivity|].
    intros Hwf. apply wf_with_mgr; try reflexivity.
    now apply wf_with_now, wf_with_os_trace.
  - split; [now left|]. split; [reflexivity|]. split; [reflexivity|].
    intros Hwf. now apply wf_with_now, wf_with_os_trace.
Qed.

(** X9. The exit waiter and the timer may run in either order: once both
    have run, status and message are those the waiter sets.  A process
    that ends before the two seconds have passed is therefore never
    shown as [running] by the timer. *)
Theorem exit_waiter_wins_over_timer (w : World) (exit : option string) :
  well_formed w ->
  (exists w1 w2,
     Start_wait exit w = Ok tt w1 /\ Start_graceTimer w1 = Ok tt w2 /\
     status (mgr w2)
       = (if exit is Some _ then StatusError else StatusStopped) /\
     statusMsg (mgr w2) = (if exit is Some err then err else ""%string)) /\
  (exists w1 w2,
     Start_graceTimer w = Ok tt w1 /\ Start_wait exit w1 = Ok tt w2 /\
     status (mgr w2)
       = (if exit is Some _ then StatusError else StatusStopped) /\
     statusMsg (mgr w2) = (if exit is Some err then err else ""%string)).
Proof.
  intros Hwf. split.
  - destruct (Start_wait_runs exit w Hwf)
      as ([] & w1 & Hwait & w0 & Hlog & Hw1).
    destruct (Start_graceTimer_status w1) as (w2 & Ht & Hm & _).
    exists w1, w2. split; [exact Hwait|]. split; [exact Ht|].
    destruct Hm as [-> | [Hst _]].
    + rewrite Hw1. split; reflexivity.
    + rewrite Hw1 in Hst. simpl in Hst. destruct exit; discriminate.
  - destruct (Start_graceTimer_status w) as (w1 & Ht & _ & _ & _ & Hwf1).
    destruct (Start_wait_runs exit w1 (Hwf1 Hwf))
      as ([] & w2 & Hwait & w0 & Hlog & Hw2).
    exists w1, w2. split; [exact Ht|]. split; [exact Hwait|].
    rewrite Hw2. split; reflexivity.
Qed.

(* ===================================================================== *)
(** * Reading the output of the process *)
(* ===================================================================== *)

Lemma status_after_lines_cons (port : Z) (logType line : string)
  (lines : list string) (st : Status) (msg : string) :
  status_after_lines port logType (line :: lines) st msg
  = status_after_lines port logType lines
      (fst (status_after_lines port logType [line] st msg))
      (snd (status_after_lines port logType [line] st msg)).
Proof.
  unfold status_after_lines. simpl.
  destruct (String.eqb logType "stdout"); simpl; [|reflexivity].
  destruct (ready_line line); simpl; [|reflexivity].
  now destruct (existsb ready_line lines).
Qed.

Lemma streamLogs_runs (lines : list string) (logType : string)
  (w : World) (v : list LogEntry) :
  well_formed w -> log_view w = Some v ->
  runs (streamLogs lines logType) w (fun _ w' =>
    well_formed w' /\
    log_view w'
      = Some (match lines with
              | [] => v
              | _ => keep_last (Z.to_nat (maxLogs (mgr w)))
                       (v ++ map (fun line => entry_at w line logType) lines)
              end) /\
    (status (mgr w'), statusMsg (mgr w'))
      = status_after_lines (Port (config (mgr w))) logType lines
          (status (mgr w)) (statusMsg (mgr w)) /\
    config (mgr w') = config (mgr w) /\
    maxLogs (mgr w') = maxLogs (mgr w) /\ now w' = now w /\
    cmd (mgr w') = cmd (mgr w) /\ goroutines w' = goroutines w /\
    os_trace w' = os_trace w).
Proof.
  revert w v. induction lines as [|line lines IH]; intros w v Hwf Hv.
  - apply runs_ret. unfold status_after_lines.
    rewrite andb_false_r.
    split; [exact Hwf|]. split; [exact Hv|]. repeat split; reflexivity.
  - unfold streamLogs. simpl. run_step.
    unfold streamLogs_line at 1. run_step.
    run_addLog w1 Hlog; [exact Hwf|].
    pose proof (logged_wf _ _ _ Hlog) as Hwf1.
    pose proof (logged_mgr _ _ _ Hlog) as Hm1.
    pose proof (logged_view _ _ _ Hlog v Hv) as Hv1.
    pose proof (logged_now _ _ _ Hlog) as Hn1.
    pose proof (logged_goroutines _ _ _ Hlog) as Hg1.
    pose proof (logged_os_trace _ _ _ Hlog) as Ht1.
    fold (ready_line line).
    assert (Hstep : forall w2,
      well_formed w2 -> log_view w2 = log_view w1 ->
      mgr w2 = Manager_set_status
                 (fst (status_after_lines (Port (config (mgr w))) logType
                         [line] (status (mgr w)) (statusMsg (mgr w))))
                 (snd (status_after_lines (Port (config (mgr w))) logType
                         [line] (status (mgr w)) (statusMsg (mgr w))))
                 (mgr w1) ->
      now w2 = now w -> goroutines w2 = goroutines w ->
      os_trace w2 = os_trace w ->
      runs (for_range lines (fun l => streamLogs_line l logType)) w2
        (fun _ w' =>
           well_formed w' /\
           log_view w'
             = Some (keep_last (Z.to_nat (maxLogs (mgr w)))
                       (v ++ map (fun l => entry_at w l logType)
                               (line :: lines))) /\
           (status (mgr w'), statusMsg (mgr w'))
             = status_after_lines (Port (config (mgr w))) logType
                 (line :: lines) (status (mgr w)) (statusMsg (mgr w)) /\
           config (mgr w') = config (mgr w) /\
           maxLogs (mgr w') = maxLogs (mgr w) /\ now w' = now w /\
           cmd (mgr w') = cmd (mgr w) /\ goroutines w' = goroutines w /\
           os_trace w' = os_trace w)).
    { intros w2 Hwf2 Hv2 Hm2 Hn2 Hg2 Ht2.
      rewrite Hv1 in Hv2.
      eapply runs_weaken; [apply (IH w2 _ Hwf2 Hv2)|].
      intros [] w' (Hwf' & Hv' & Hst' & Hcfg' & Hmax' & Hn' & Hcmd' & Hg'
                    & Ht').
      assert (Hcfg2 : config (mgr w2) = config (mgr w))
        by (rewrite Hm2, Hm1; reflexivity).
      assert (Hmax2 : maxLogs (mgr w2) = maxLogs (mgr w))
        by (rewrite Hm2, Hm1; reflexivity).
      assert (He : forall l, entry_at w2 l logType = entry_at w l logType)
        by (intros l; unfold entry_at; now rewrite Hn2).
      split; [exact Hwf'|]. split.
      { rewrite Hv', Hmax2. f_equal.
        rewrite (map_ext _ (fun l => entry_at w l logType) He).
        destruct lines as [|l lines]; [reflexivity|].
        rewrite keep_last_app_assoc, <- app_assoc. reflexivity. }
      split.
      { rewrite Hst', Hcfg2, status_after_lines_cons.
        rewrite Hm2. reflexivity. }
      rewrite Hcfg', Hmax', Hn', Hcmd', Hg', Ht'.
      rewrite Hcfg2, Hmax2, Hn2, Hg2, Ht2, Hm2, Hm1.
      repeat split; reflexivity. }
    unfold status_after_lines in Hstep. simpl existsb in Hstep.
    rewrite orb_false_r in Hstep.
    destruct (String.eqb logType "stdout" && ready_line line) eqn:Hready.
    + run_steps. apply Hstep; simpl; try assumption; try reflexivity.
      * now apply wf_with_mgr.
      * now rewrite (logged_config _ _ _ Hlog).
    + run_steps. apply Hstep; simpl; try assumption; try reflexivity.
      rewrite <- (logged_status _ _ _ Hlog), <- (logged_statusMsg _ _ _ Hlog).
      now destruct (mgr w1).
Qed.

(** X10. [streamLogs] appends every line it reads to the log, in the
    order read and with the type of its pipe; it asks nothing of the
    operating system and launches nothing. *)
Theorem streamLogs_logs_every_line_in_order
  (w : World) (v : list LogEntry) (lines : list string)
  (logType : string) :
  well_formed w -> log_view w = Some v -> lines <> [] ->
  exists w',
    streamLogs lines logType w = Ok tt w' /\ well_formed w' /\
    log_view w'
      = Some (keep_last (Z.to_nat (maxLogs (mgr w)))
                (v ++ map (fun line => {| Time := now w; Message := line;
                                          Type_ := logType |}) lines)) /\
    goroutines w' = goroutines w /\ os_trace w' = os_trace w /\
    cmd (mgr w') = cmd (mgr w).
Proof.
  intros Hwf Hv Hne.
  destruct (streamLogs_runs lines logType w v Hwf Hv)
    as ([] & w' & Hrun & Hwf' & Hv' & _ & _ & _ & _ & Hcmd & Hg & Ht).
  exists w'. split; [exact Hrun|]. split; [exact Hwf'|].
  split; [|auto]. rewrite Hv'. destruct lines; [contradiction|reflexivity].
Qed.

(** X11. [streamLogs] changes the status only on standard output and only
    when a line holds "Web Server is available" or "Serving pages from":
    then the status ends as [running] with the configured port in the
    message, whatever it was before.  Lines of standard error, and lines
    without those words, leave status and message alone. *)
Theorem streamLogs_sets_running_only_on_ready_line
  (w : World) (lines : list string) (logType : string) :
  well_formed w ->
  exists w',
    streamLogs lines logType w = Ok tt w' /\
    (logType = "stdout"%string ->
     (exists line, line ∈ lines /\
        (is_substring "Web Server is available" line \/
         is_substring "Serving pages from" line)) ->
     status (mgr w') = StatusRunning /\
     statusMsg (mgr w')
       = "Running on port " +:+ Sprintf_d (Port (config (mgr w)))) /\
    (logType <> "stdout"%string \/
     (forall line, line ∈ lines ->
        ~ is_substring "Web Server is available" line /\
        ~ is_substring "Serving pages from" line) ->
     status (mgr w') = status (mgr w) /\
     statusMsg (mgr w') = statusMsg (mgr w)).
Proof.
  intros Hwf. destruct (wf_log_view w Hwf) as (v & Hv & _).
  destruct (streamLogs_runs lines logType w v Hwf Hv)
    as ([] & w' & Hrun & _ & _ & Hst & _).
  exists w'. split; [exact Hrun|].
  unfold status_after_lines in Hst.
  assert (Hready : forall line,
             ready_line line = true <->
             is_substring "Web Server is available" line \/
             is_substring "Serving pages from" line).
  { intros line. unfold ready_line. rewrite orb_true_iff.
    now rewrite !contains_iff. }
  split.
  - intros -> (line & Hin & His). simpl in Hst.
    replace (existsb ready_line lines) with true in Hst.
    + now injection Hst.
    + symmetry. apply existsb_exists. exists line.
      split; [now apply list_elem_of_In | now apply Hready].
  - intros Hcalm.
    replace (String.eqb logType "stdout" && existsb ready_line lines)
      with false in Hst; [now injection Hst|].
    symmetry. apply andb_false_iff.
    destruct Hcalm as [Hne|Hnone].
    + left. now apply String.eqb_neq.
    + right. apply not_true_is_false. intros Hex.
      apply existsb_exists in Hex as (line & Hin & Hr).
      apply list_elem_of_In in Hin.
      apply Hready in Hr. destruct (Hnone line Hin). tauto.
Qed.

(** X12. The scan alone decides containment: [containsAt] returns what
    [contains] returns for all strings, also when the string searched for
    is longer than the string searched in (the loop is then not entered)
    and when both are empty. *)
Theorem containsAt_agrees_with_contains (s substr : string) :
  containsAt s substr = contains s substr /\
  (len s < len substr -> containsAt s substr = false) /\
  containsAt s ""%string = true.
Proof.
  assert (Hshort : len s < len substr -> containsAt s substr = false).
  { intros Hlt. unfold containsAt.
    replace (Z.to_nat (len s - len substr + 1)) with 0%nat by lia.
    reflexivity. }
  split; [|split; [exact Hshort|]].
  - destruct (Z.lt_ge_cases (len s) (len substr)) as [Hlt|Hge].
    + rewrite (Hshort Hlt). unfold contains.
      destruct (Z.geb_spec (len s) (len substr)) as [?|_]; [lia|].
      reflexivity.
    + destruct (containsAt s substr) eqn:Hat.
      * symmetry. apply contains_iff. now apply containsAt_iff.
      * symmetry. apply not_true_is_false. intros Hc.
        apply contains_iff in Hc.
        apply (containsAt_iff s substr) in Hc; [congruence | lia].
  - apply containsAt_iff; [unfold len; simpl; lia|].
    exists ""%string, s. reflexivity.
Qed.

(* ===================================================================== *)
(** * The log handler of the server *)
(* ===================================================================== *)



(* ===================================================================== *)
(** * Invariants of every history *)
(* ===================================================================== *)

Section Invariants.

Variable J : World -> Prop.
Hypothesis J_wf : forall w, J w -> well_formed w.
Hypothesis J_logged : forall e w w', J w -> logged e w w' -> J w'.
Hypothesis J_status :
  forall st msg w, J w -> J (with_mgr (Manager_set_status st msg) w).
Hypothesis J_cmd :
  forall c w, J w -> J (with_mgr (Manager_set_cmd c) w).
Hypothesis J_os : forall f w, J w -> J (with_os_trace f w).
Hypothesis J_go : forall f w, J w -> J (with_goroutines f w).
Hypothesis J_now : forall f w, J w -> J (with_now f w).
Hypothesis J_Subscribe :
  forall w ch w', J w -> Subscribe w = Ok ch w' -> J w'.
Hypothesis J_Unsubscribe :
  forall w ch w', J w -> Unsubscribe ch w = Ok tt w' -> J w'.
Hypothesis J_GetLogs :
  forall w limit r w', J w -> GetLogs limit w = Ok r w' -> J w'.

Ltac inv_close :=
  repeat first [ assumption | apply J_status | apply J_cmd | apply J_os
               | apply J_go | apply J_now ].

Ltac inv_addLog w1 HJ1 :=
  eapply runs_weaken;
  [ apply addLog_logged, J_wf; inv_close
  | let Hlog := fresh "Hlog" in
    intros [] w1 Hlog;
    assert (HJ1 : J w1) by (eapply J_logged; [|exact Hlog]; inv_close) ].

Lemma inv_Start (os : SpawnOutcome) (w : World) :
  J w -> runs (Start os) w (fun _ w' => J w').
Proof.
  intros HJ. unfold Start. run_step. run_step.
  destruct (_ || _); [now run_step|].
  run_step. run_step. run_step. inv_addLog w1 HJ1.
  run_steps. destruct os; run_steps; inv_close.
Qed.

Lemma inv_Stop (kill : option string) (w : World) :
  J w -> runs (Stop kill) w (fun _ w' => J w').
Proof.
  intros HJ. unfold Stop. run_step. run_step.
  destruct (bool_decide _); [now run_step|].
  run_step. inv_addLog w1 HJ1. run_step. run_step. run_step.
  destruct (cmd (mgr w1)) as [[p a d [pid|]]|]; run_steps; inv_close.
  destruct kill as [err|]; run_steps; inv_close.
  inv_addLog w2 HJ2. run_steps. inv_close.
Qed.

Lemma inv_Restart (kill : option string) (os : SpawnOutcome) (w : World) :
  J w -> runs (Restart kill os) w (fun _ w' => J w').
Proof.
  intros HJ. unfold Restart. run_step. inv_addLog w1 HJ1.
  run_step. run_step. run_step.
  destruct (negb _).
  - run_step. eapply runs_weaken; [now apply inv_Stop|].
    intros [e|] w2 HJ2; run_steps; [exact HJ2|].
    apply inv_Start. inv_close.
  - run_steps. now apply inv_Start.
Qed.

Lemma inv_Start_wait (exit : option string) (w : World) :
  J w -> runs (Start_wait exit) w (fun _ w' => J w').
Proof.
  intros HJ. unfold Start_wait.
  destruct exit; run_step; inv_addLog w1 HJ1; run_steps; inv_close.
Qed.

Lemma inv_Start_graceTimer (w : World) :
  J w -> runs Start_graceTimer w (fun _ w' => J w').
Proof.
  intros HJ. unfold Start_graceTimer. run_steps.
  destruct (bool_decide _); run_steps; inv_close.
Qed.

Lemma inv_streamLogs_line (line logType : string) (w : World) :
  J w -> runs (streamLogs_line line logType) w (fun _ w' => J w').
Proof.
  intros HJ. unfold streamLogs_line. run_step. inv_addLog w1 HJ1.
  destruct (_ && _); run_steps; inv_close.
Qed.

Lemma inv_run_call (c : Call) (w : World) :
  J w -> runs (run_call c) w (fun _ w' => J w').
Proof.
  intros HJ. pose proof (J_wf w HJ) as Hwf. destruct c; simpl.
  - run_step. eapply runs_weaken; [now apply inv_Start|].
    intros r w' H. now apply runs_ret.
  - run_step. eapply runs_weaken; [now apply inv_Stop|].
    intros r w' H. now apply runs_ret.
  - run_step. eapply runs_weaken; [now apply inv_Restart|].
    intros r w' H. now apply runs_ret.
  - unfold GetStatus. run_steps. exact HJ.
  - destruct (GetLogs_well_formed limit w Hwf) as (r & w' & Hrun & _).
    run_step. eapply runs_eq; [exact Hrun|]. apply runs_ret.
    apply (J_GetLogs w limit r w' HJ Hrun).
  - destruct (Subscribe_runs w Hwf) as (ch & w' & Hrun & _).
    run_step. eapply runs_eq; [exact Hrun|]. apply runs_ret.
    apply (J_Subscribe w ch w' HJ Hrun).
  - destruct (Unsubscribe_runs ch w Hwf) as ([] & w' & Hrun & _).
    eapply runs_eq; [exact Hrun|].
    apply (J_Unsubscribe w ch w' HJ Hrun).
  - now apply inv_Start_graceTimer.
  - now apply inv_Start_wait.
  - now apply inv_streamLogs_line.
  - run_step. inv_close.
Qed.

Lemma inv_history (history : list Call) (w : World) :
  J w -> runs (for_range history run_call) w (fun _ w' => J w').
Proof.
  revert w. induction history as [|c history IH]; intros w HJ; simpl.
  - now apply runs_ret.
  - run_step. eapply runs_weaken; [now apply inv_run_call|].
    intros [] w' HJ'. now apply IH.
Qed.

End Invariants.

Lemma broadcast_keeps (P : Chan -> Prop) (e : LogEntry) (subs : list nat)
  (cs : list Chan) :
  (forall c, P c -> P (offer e c)) ->
  (forall ch c, cs !! ch = Some c -> P c) ->
  forall ch c, broadcast e subs cs !! ch = Some c -> P c.
Proof.
  intros Hoffer. revert cs.
  induction subs as [|x subs IH]; intros cs Hall ch c Hc; simpl in Hc.
  - now apply (Hall ch).
  - apply (IH _) with (ch := ch) (2 := Hc).
    intros ch' c' Hc'. destruct (cs !! x) as [cx|] eqn:Hx;
      [|now apply (Hall ch')].
    apply list_lookup_insert_Some in Hc' as [(-> & <- & _)|[_ Hc']].
    + apply Hoffer. now apply (Hall ch').
    + now apply (Hall ch').
Qed.

Lemma Subscribe_world (w : World) (ch : nat) (w' : World) :
  Subscribe w = Ok ch w' ->
  ch = length (chans w) /\
  w' = with_mgr (fun m => Manager_set_subscribers (subscribers m ++ [ch]) m)
         (with_chans (fun cs => cs ++ [{| ch_buf := []; ch_cap := 100;
                                          ch_closed := false |}]) w).
Proof.
  unfold Subscribe, bind, make_chan, modify, ret. intros H.
  injection H as <- <-. split; reflexivity.
Qed.

Lemma Unsubscribe_world (w : World) (ch : nat) (w' : World) :
  Unsubscribe ch w = Ok tt w' ->
  w' = w \/
  exists subs' c,
    chans w !! ch = Some c /\
    w' = with_chans (fun cs => <[ch := Chan_set_closed true c]> cs)
           (with_mgr (Manager_set_subscribers subs') w).
Proof.
  unfold Unsubscribe, bind, gets. 
  destruct (remove_first ch (subscribers (mgr w))) as [subs'|];
    [|intros H; injection H as <-; now left].
  unfold modify, close, bind, read_chan. simpl.
  destruct (chans w !! ch) as [c|] eqn:Hc; [|discriminate].
  destruct (ch_closed c); [discriminate|].
  unfold write_chan, modify. intros H. injection H as <-.
  right. exists subs', c. split; reflexivity.
Qed.

Lemma GetLogs_world (w : World) (limit : Z) (r : Slice) (w' : World) :
  well_formed w -> GetLogs limit w = Ok r w' ->
  mgr w' = mgr w /\ chans w' = chans w /\ well_formed w'.
Proof.
  intros Hwf Hrun. destruct (wf_log_view w Hwf) as (v & Hv & _).
  pose proof (runs_inv _ _ _ _ _ (GetLogs_runs limit w v Hwf Hv) Hrun)
    as (Hw' & _).
  pose proof (runs_inv _ _ _ _ _ (GetLogs_well_formed limit w Hwf) Hrun)
    as (Hwf' & _).
  split; [now rewrite Hw'|]. split; [now rewrite Hw' | exact Hwf'].
Qed.

(** X14. The manager never changes its configuration or its project
    directory: after any history of calls and goroutine steps, [GetPort]
    still returns the port the manager was made with, and a later [Start]
    builds the same command line in the same directory. *)
Theorem settings_never_change
  (dir : string) (cfg : HugoConfig) (history : list Call) :
  exists w,
    for_range history run_call (NewManager dir cfg) = Ok tt w /\
    GetPort w = Ok (Port cfg) w /\
    projectDir (mgr w) = dir /\ config (mgr w) = cfg /\
    hugo_cmd (mgr w) = hugo_cmd (mgr (NewManager dir cfg)).
Proof.
  set (J := fun w => well_formed w /\ settings_are dir cfg w).
  assert (HJ : runs (for_range history run_call) (NewManager dir cfg)
                 (fun _ w => J w)).
  { apply inv_history; unfold J, settings_are.
    - now intros w [Hwf _].
    - intros e w w' [Hwf [Hd Hc]] Hlog.
      split; [apply (logged_wf _ _ _ Hlog)|].
      now rewrite (logged_projectDir _ _ _ Hlog), (logged_config _ _ _ Hlog).
    - intros st msg w [Hwf Hs]. split; [now apply wf_with_mgr | exact Hs].
    - intros c w [Hwf Hs]. split; [now apply wf_with_mgr | exact Hs].
    - intros f w [Hwf Hs]. split; [now apply wf_with_os_trace | exact Hs].
    - intros f w [Hwf Hs]. split; [now apply wf_with_goroutines | exact Hs].
    - intros f w [Hwf Hs]. split; [now apply wf_with_now | exact Hs].
    - intros w ch w' [Hwf Hs] Hrun.
      pose proof (runs_inv _ _ _ _ _ (Subscribe_runs w Hwf) Hrun)
        as (Hwf' & _).
      split; [exact Hwf'|].
      destruct (Subscribe_world _ _ _ Hrun) as [_ ->]. exact Hs.
    - intros w ch w' [Hwf Hs] Hrun.
      pose proof (runs_inv _ _ _ _ _ (Unsubscribe_runs ch w Hwf) Hrun)
        as (Hwf' & _).
      split; [exact Hwf'|].
      destruct (Unsubscribe_world _ _ _ Hrun) as [-> | (s & c & _ & ->)];
        exact Hs.
    - intros w limit r w' [Hwf Hs] Hrun.
      destruct (GetLogs_world _ _ _ _ Hwf Hrun) as (Hm & _ & Hwf').
      split; [exact Hwf'|]. now rewrite Hm.
    - split; [apply wf_NewManager | split; reflexivity]. }
  destruct HJ as ([] & w & Hrun & _ & Hd & Hc).
  exists w. split; [exact Hrun|].
  split; [unfold GetPort, gets; now rewrite Hc|].
  split; [exact Hd|]. split; [exact Hc|].
  unfold hugo_cmd. now rewrite Hd, Hc.
Qed.

(** X15. No queue grows beyond its capacity: after any history of calls
    and goroutine steps, every channel the manager has handed out has
    capacity 100 and holds at most 100 entries, whether or not anybody
    receives from it. *)
Theorem subscriber_queues_stay_bounded
  (dir : string) (cfg : HugoConfig) (history : list Call) :
  exists w,
    for_range history run_call (NewManager dir cfg) = Ok tt w /\
    forall ch c, chans w !! ch = Some c ->
                 ch_cap c = 100%nat /\ (length (ch_buf c) <= 100)%nat.
Proof.
  set (J := fun w => well_formed w /\ queues_bounded w).
  assert (HJ : runs (for_range history run_call) (NewManager dir cfg)
                 (fun _ w => J w)).
  { apply inv_history; unfold J.
    - now intros w [Hwf _].
    - intros e w w' [Hwf Hq] Hlog.
      split; [apply (logged_wf _ _ _ Hlog)|].
      unfold queues_bounded. rewrite (logged_chans _ _ _ Hlog).
      apply (broadcast_keeps
               (fun c => ch_cap c = 100%nat /\ (length (ch_buf c) <= 100)%nat));
        [|exact Hq].
      intros c [Hcap Hlen]. rewrite offer_cap. split; [exact Hcap|].
      rewrite <- Hcap, <- (offer_cap e c). apply offer_bounded. lia.
    - intros st msg w [Hwf Hs]. split; [now apply wf_with_mgr | exact Hs].
    - intros c w [Hwf Hs]. split; [now apply wf_with_mgr | exact Hs].
    - intros f w [Hwf Hs]. split; [now apply wf_with_os_trace | exact Hs].
    - intros f w [Hwf Hs]. split; [now apply wf_with_goroutines | exact Hs].
    - intros f w [Hwf Hs]. split; [now apply wf_with_now | exact Hs].
    - intros w ch w' [Hwf Hq] Hrun.
      pose proof (runs_inv _ _ _ _ _ (Subscribe_runs w Hwf) Hrun)
        as (Hwf' & _).
      split; [exact Hwf'|].
      destruct (Subscribe_world _ _ _ Hrun) as [_ ->].
      intros ch' c Hc. simpl in Hc.
      apply lookup_app_Some in Hc as [Hc|[_ Hc]]; [now apply (Hq ch')|].
      apply list_lookup_singleton_Some in Hc as [_ <-]. simpl. lia.
    - intros w ch w' [Hwf Hq] Hrun.
      pose proof (runs_inv _ _ _ _ _ (Unsubscribe_runs ch w Hwf) Hrun)
        as (Hwf' & _).
      split; [exact Hwf'|].
      destruct (Unsubscribe_world _ _ _ Hrun) as [-> | (s & c & Hc & ->)];
        [exact Hq|].
      intros ch' c' Hc'. simpl in Hc'.
      apply list_lookup_insert_Some in Hc' as [(-> & <- & _)|[_ Hc']];
        [apply (Hq _ _ Hc) | apply (Hq _ _ Hc')].
    - intros w limit r w' [Hwf Hq] Hrun.
      destruct (GetLogs_world _ _ _ _ Hwf Hrun) as (_ & Hch & Hwf').
      split; [exact Hwf'|]. unfold queues_bounded. now rewrite Hch.
    - split; [apply wf_NewManager|].
      intros ch c Hc. simpl in Hc. now rewrite lookup_nil in Hc. }
  destruct HJ as ([] & w & Hrun & _ & Hq).
  exists w. split; [exact Hrun | exact Hq].
Qed.

(** X16. What was just logged is what [GetLogs(1)] returns: after
    [addLog message logType], with a capacity of at least one entry, the
    most recent entry is the one made of that message and type and the
    time of the call. *)
Theorem addLog_then_GetLogs_returns_the_entry
  (w : World) (message logType : string) :
  well_formed w -> 0 < maxLogs (mgr w) ->
  exists w1 r w2,
    addLog message logType w = Ok tt w1 /\
    GetLogs 1 w1 = Ok r w2 /\
    slice_view (arrays w2) r
      = Some [{| Time := now w; Message := message; Type_ := logType |}].
Proof.
  intros Hwf Hmax. destruct (wf_log_view w Hwf) as (v & Hv & _).
  destruct (addLog_logged message logType w Hwf) as ([] & w1 & Hrun & Hlog).
  pose proof (logged_view _ _ _ Hlog v Hv) as Hv1.
  destruct (GetLogs_runs 1 w1 _ (logged_wf _ _ _ Hlog) Hv1)
    as (r & w2 & Hget & _ & _ & _ & _ & Hr).
  exists w1, r, w2. split; [exact Hrun|]. split; [exact Hget|].
  rewrite Hr. f_equal.
  set (n := Z.to_nat (maxLogs (mgr w))).
  set (e := entry_at w message logType).
  assert (Hlen : length (keep_last n (v ++ [e])) = Nat.min n (S (length v))).
  { rewrite keep_last_length, length_app. simpl. f_equal. lia. }
  unfold recent. rewrite Hlen.
  destruct (Z.leb_spec 1 (Z.of_nat (Nat.min n (S (length v))))) as [_|?];
    [|lia].
  simpl. unfold keep_last at 1. rewrite Hlen.
  unfold keep_last. rewrite drop_drop, length_app. simpl.
  replace (length v + 1 - n + (Nat.min n (S (length v)) - Z.to_nat 1))%nat
    with (length v) by lia.
  now rewrite drop_app_length.
Qed.

(* ===================================================================== *)
(** * Validation of the configuration file *)
(* ===================================================================== *)

Ltac list_member :=
  repeat first [ apply list_elem_of_here | apply list_elem_of_further ].

Ltac list_cases H tac :=
  repeat (apply elem_of_cons in H as [H|H]; [tac|]);
  try (now apply elem_of_nil in H).

Lemma validTypes_at_true (t : string) :
  validTypes_at t = true <->
  t ∈ ["text"; "textarea"; "number"; "bool"; "date"]%string.
Proof.
  unfold validTypes_at, validTypes.
  set (l := [("text"%string, true); ("textarea"%string, true);
             ("number"%string, true); ("bool"%string, true);
             ("date"%string, true)]).
  assert (Hnd : NoDup l.*1).
  { simpl.
    repeat (apply NoDup_cons_2;
            [let H := fresh in intros H; list_cases H discriminate|]).
    apply NoDup_nil_2. }
  split.
  - destruct (list_to_map l !! t) as [b|] eqn:Hb; simpl; [|discriminate].
    intros ->. apply elem_of_list_to_map in Hb; [|exact Hnd].
    unfold l in Hb.
    list_cases Hb ltac:(injection Hb as ->; list_member).
  - intros Hin.
    assert (Hl : (t, true) ∈ l).
    { unfold l. list_cases Hin ltac:(subst t; list_member). }
    apply (elem_of_list_to_map (M := gmap string)) in Hl; [|exact Hnd].
    now rewrite Hl.
Qed.

Lemma validateFields_None (templateName : string)
  (fields : list (string * TemplateField)) :
  validateFields templateName fields = None <-> Forall field_ok fields.
Proof.
  induction fields as [|[fieldName field] rest IH]; simpl.
  - split; [constructor | reflexivity].
  - rewrite Forall_cons. unfold field_ok at 1. simpl.
    destruct (String.eqb_spec fieldName "") as [->|Hname].
    { split; [discriminate | intros [[H _] _]; contradiction]. }
    destruct (String.eqb_spec (TemplateField_Type field) "") as [Hty|Hty].
    { split; [discriminate|]. intros [[_ Hin] _]. rewrite Hty in Hin.
      list_cases Hin discriminate. }
    destruct (validTypes_at (TemplateField_Type field)) eqn:Hvalid; simpl.
    + apply validTypes_at_true in Hvalid. rewrite IH. tauto.
    + split; [discriminate|]. intros [[_ Hin] _].
      apply validTypes_at_true in Hin. congruence.
Qed.

(** X17. [validateTemplates] accepts a template configuration exactly
    when every template has a name, every field has a name and the type
    of every field is one of text, textarea, number, bool and date; a
    configuration without templates is accepted.  Whether it accepts does
    not depend on the order in which the maps are walked. *)
Theorem validateTemplates_accepts_exactly_valid
  (templates templates' : list (string * list (string * TemplateField))) :
  (validateTemplates templates = None <-> Forall template_ok templates) /\
  validateTemplates [] = None /\
  (templates ≡ₚ templates' ->
   (validateTemplates templates = None <->
    validateTemplates templates' = None)).
Proof.
  assert (Hiff : forall ts, validateTemplates ts = None <->
                            Forall template_ok ts).
  { induction ts as [|[name fields] rest IH]; simpl.
    - split; [constructor | reflexivity].
    - rewrite Forall_cons. unfold template_ok at 1. simpl.
      destruct (String.eqb_spec name "") as [->|Hname].
      { split; [discriminate | intros [[H _] _]; contradiction]. }
      destruct (validateFields name fields) as [err|] eqn:Hf.
      + split; [discriminate|]. intros [[_ Hok] _].
        apply (validateFields_None name) in Hok. congruence.
      + apply validateFields_None in Hf. rewrite IH. tauto. }
  split; [apply Hiff|]. split; [reflexivity|].
  intros Hperm. rewrite !Hiff. now rewrite Hperm.
Qed.
End Supervisor.

(* ===================================================================== *)
(** * The sample worlds are worlds the manager reaches *)
(* ===================================================================== *)

Lemma sample_starting_reached :
  Start spare_doubling (Started 42) sample_world = Ok None sample_starting.
Proof. vm_compute. reflexivity. Qed.

Lemma sample_crashed_reached :
  Start_wait spare_doubling (Some "exit status 1"%string) sample_starting
  = Ok tt sample_crashed.
Proof. vm_compute. reflexivity. Qed.

Lemma sample_worlds_well_formed :
  well_formed sample_world /\ well_formed sample_starting /\
  well_formed sample_crashed /\ well_formed sample_subscribed.
Proof. repeat split; apply wfb_sound; vm_compute; reflexivity. Qed.

(* ===================================================================== *)
(** * The claims at sample inputs *)
(* ===================================================================== *)

Lemma Start_Stop_rejected_without_effect_witness :
  (status (mgr sample_starting) = StatusStarting /\
   Start spare_doubling (Started 43) sample_starting
   = Ok (Some "Hugo is already running"%string) sample_starting) /\
  (status (mgr sample_world) = StatusStopped /\
   Stop spare_doubling None sample_world
   = Ok (Some "Hugo is not running"%string) sample_world).
Proof.
  split; (split; [reflexivity|]).
  - apply (proj1 (Start_Stop_rejected_without_effect spare_doubling
                    sample_starting (Started 43) None)).
    right. reflexivity.
  - apply (proj2 (Start_Stop_rejected_without_effect spare_doubling
                    sample_world (Started 43) None)).
    reflexivity.
Defined.

Lemma log_buffer_never_exceeds_capacity_witness :
  length (sample_entries 1003) = (1000 + 3)%nat /\
  exists w' r w'',
    appends spare_doubling (sample_entries 1003) sample_world = Ok tt w' /\
    GetLogs 0 w' = Ok r w'' /\
    slice_view (arrays w'') r = Some (drop 3 (sample_entries 1003)).
Proof.
  assert (Hlen : length (sample_entries 1003) = (1000 + 3)%nat)
    by (vm_compute; reflexivity).
  split; [exact Hlen|].
  destruct (log_buffer_never_exceeds_capacity spare_doubling
              "/srv/site" sample_config (sample_entries 1003) [])
    as (_ & _ & (w' & v & Happ & _ & _ & _ & Hk) & _).
  destruct (Hk 3%nat) as (r & w'' & Hget & Hview & _);
    [lia | exact Hlen |].
  exists w', r, w''. split; [exact Happ|]. split; [exact Hget|].
  exact Hview.
Defined.

Lemma Restart_stops_then_starts_unless_Stop_fails_witness :
  well_formed sample_crashed /\
  exists w1,
    addLog spare_doubling "Restarting Hugo server..." "system" sample_crashed
    = Ok tt w1 /\
    (status (mgr sample_crashed) <> StatusStopped ->
     exists r w2,
       Stop spare_doubling (Some "os: process already finished"%string) w1
       = Ok r w2 /\
       (forall e, r = Some e ->
          Restart spare_doubling (Some "os: process already finished"%string)
            (Started 43) sample_crashed
          = Ok (Some e) w2)).
Proof.
  assert (Hwf : well_formed sample_crashed)
    by (apply wfb_sound; vm_compute; reflexivity).
  split; [exact Hwf|].
  destruct (Restart_stops_then_starts_unless_Stop_fails spare_doubling
              sample_crashed (Some "os: process already finished"%string)
              (Started 43) Hwf)
    as (w1 & Hlog & _ & Hbusy).
  exists w1. split; [exact Hlog|].
  intros Hst. destruct (Hbusy Hst) as (r & w2 & Hstop & Hfail & _).
  exists r, w2. split; [exact Hstop | exact Hfail].
Defined.

(** C3, the claim as it is written, fails.  The sample manager is in the
    status [error] (its process has died) and the kill of [Stop] fails.
    [Restart] then returns the failure of [Stop]: the operating system is
    asked neither to sleep nor to launch a process, no goroutine is
    launched and the status stays [error].  Had [Restart] gone on
    regardless of the outcome of [Stop], it would have slept and
    launched a new process. *)
Lemma Restart_gives_up_when_Stop_fails :
  well_formed sample_crashed /\
  status (mgr sample_crashed) <> StatusStopped /\
  (exists w',
     Restart spare_doubling (Some "os: process already finished"%string)
       (Started 43) sample_crashed
     = Ok (Some "os: process already finished"%string) w' /\
     os_trace w' = [EvStart sample_cmd; EvKill 42] /\
     goroutines w' = goroutines sample_crashed /\
     status (mgr w') = StatusError) /\
  (exists w',
     Restart_as_claimed spare_doubling
       (Some "os: process already finished"%string) (Started 43)
       sample_crashed
     = Ok (Some "os: process already finished"%string) w' /\
     os_trace w' = [EvStart sample_cmd; EvKill 42; EvSleep 500000000;
                    EvStart sample_cmd] /\
     goroutines w' = goroutines sample_crashed ++ background_loops /\
     status (mgr w') = StatusStarting) /\
  Restart spare_doubling (Some "os: process already finished"%string)
    (Started 43) sample_crashed
  <> Restart_as_claimed spare_doubling
       (Some "os: process already finished"%string) (Started 43)
       sample_crashed.
Proof.
  split; [apply wfb_sound; vm_compute; reflexivity|].
  split; [discriminate|].
  split; [eexists; split; [vm_compute; reflexivity|];
          repeat split; reflexivity|].
  split; [eexists; split; [vm_compute; reflexivity|];
          repeat split; reflexivity|].
  intros Heq.
  apply (f_equal (fun r => match r with
                           | Ok _ w' => length (os_trace w')
                           | Panic => 0%nat
                           end)) in Heq.
  vm_compute in Heq. discriminate.
Qed.

Lemma Start_spawn_failure_is_reported_witness :
  well_formed sample_world /\
  status (mgr sample_world) <> StatusRunning /\
  status (mgr sample_world) <> StatusStarting /\
  failure_of (StartFails "fork/exec /usr/bin/hugo: permission denied")
  = Some ("Failed to start Hugo: "%string,
          "fork/exec /usr/bin/hugo: permission denied"%string) /\
  exists w',
    Start spare_doubling
      (StartFails "fork/exec /usr/bin/hugo: permission denied") sample_world
    = Ok (Some "fork/exec /usr/bin/hugo: permission denied"%string) w' /\
    status (mgr w') = StatusError /\
    statusMsg (mgr w')
    = "Failed to start Hugo: fork/exec /usr/bin/hugo: permission denied"%string
    /\ goroutines w' = [].
Proof.
  assert (Hwf : well_formed sample_world)
    by (apply wfb_sound; vm_compute; reflexivity).
  assert (H1 : status (mgr sample_world) <> StatusRunning) by discriminate.
  assert (H2 : status (mgr sample_world) <> StatusStarting) by discriminate.
  split; [exact Hwf|]. split; [exact H1|]. split; [exact H2|].
  split; [reflexivity|].
  destruct (Start_spawn_failure_is_reported spare_doubling sample_world
              (StartFails "fork/exec /usr/bin/hugo: permission denied")
              "Failed to start Hugo: "
              "fork/exec /usr/bin/hugo: permission denied"
              Hwf H1 H2 eq_refl)
    as (w' & Hstart & Hst & Hmsg & _ & Hgo & _).
  exists w'. split; [exact Hstart|]. split; [exact Hst|].
  split; [exact Hmsg | exact Hgo].
Defined.

Lemma Stop_kills_and_keeps_status_on_failure_witness :
  well_formed sample_starting /\
  status (mgr sample_starting) <> StatusStopped /\
  kill_target (mgr sample_starting) = Some 42%nat /\
  exists r w',
    Stop spare_doubling (Some "operation not permitted"%string)
      sample_starting = Ok r w' /\
    r = Some "operation not permitted"%string /\
    status (mgr w') = StatusStarting /\
    statusMsg (mgr w') = "Starting Hugo server..."%string /\
    os_trace w' = [EvStart sample_cmd; EvKill 42].
Proof.
  assert (Hwf : well_formed sample_starting)
    by (apply wfb_sound; vm_compute; reflexivity).
  assert (H1 : status (mgr sample_starting) <> StatusStopped)
    by discriminate.
  split; [exact Hwf|]. split; [exact H1|]. split; [reflexivity|].
  destruct (Stop_kills_and_keeps_status_on_failure spare_doubling
              sample_starting (Some "operation not permitted"%string)
              Hwf H1)
    as (r & w' & Hstop & _ & _ & Htrace & _ & _ & _ & Hfail).
  destruct (Hfail 42%nat "operation not permitted"%string eq_refl eq_refl)
    as (Hr & Hst & Hmsg).
  exists r, w'. split; [exact Hstop|]. split; [exact Hr|].
  split; [exact Hst|]. split; [exact Hmsg|].
  exact (Htrace 42%nat eq_refl).
Defined.

Lemma addLog_offers_entry_without_blocking_witness :
  well_formed sample_subscribed /\
  exists w',
    addLog spare_doubling "Web Server is available" "stdout"
      sample_subscribed = Ok tt w' /\
    chans w' !! 0%nat = chans sample_subscribed !! 0%nat /\
    chans w' !! 1%nat
    = Some {| ch_buf := [{| Time := 5;
                            Message := "Web Server is available";
                            Type_ := "stdout" |}];
              ch_cap := 100; ch_closed := false |}.
Proof.
  assert (Hwf : well_formed sample_subscribed)
    by (apply wfb_sound; vm_compute; reflexivity).
  split; [exact Hwf|].
  destruct (addLog_offers_entry_without_blocking spare_doubling
              sample_subscribed "Web Server is available" "stdout" Hwf)
    as ((w' & Hrun & _ & _ & _ & _ & Hch) & _).
  exists w'. split; [exact Hrun|]. split.
  - destruct (Hch 0%nat _ eq_refl) as (_ & Hfull & _).
    rewrite Hfull; [reflexivity | | ].
    + apply list_elem_of_here.
    + vm_compute. reflexivity.
  - destruct (Hch 1%nat _ eq_refl) as (Hroom & _ & _).
    rewrite Hroom; [reflexivity | | ].
    + apply list_elem_of_further, list_elem_of_here.
    + vm_compute. lia.
Defined.

Lemma GetLogs_returns_recent_snapshot_witness :
  well_formed sample_crashed /\
  exists v r w1,
    log_view sample_crashed = Some v /\
    GetLogs 1 sample_crashed = Ok r w1 /\
    slice_view (arrays w1) r
    = Some [{| Time := 0;
               Message := "Hugo exited with error: exit status 1";
               Type_ := "system" |}] /\
    exists w2,
      appends spare_doubling (sample_entries 5) w1 = Ok tt w2 /\
      slice_view (arrays w2) r
      = Some [{| Time := 0;
                 Message := "Hugo exited with error: exit status 1";
                 Type_ := "system" |}].
Proof.
  assert (Hwf : well_formed sample_crashed)
    by (apply wfb_sound; vm_compute; reflexivity).
  split; [exact Hwf|].
  destruct (GetLogs_returns_recent_snapshot spare_doubling sample_crashed
              _ 1 Hwf eq_refl)
    as (r & w1 & Hget & Hview & _ & _ & _ & _ & _ & _ & Hlater).
  destruct (Hlater (sample_entries 5)) as (w2 & Happ & Hview2).
  eexists. exists r, w1. split; [reflexivity|]. split; [exact Hget|].
  split; [exact Hview|]. exists w2. split; [exact Happ | exact Hview2].
Defined.


Lemma graceTimer_promotes_only_from_starting_witness :
  (status (mgr sample_starting) = StatusStarting /\
   exists w',
     Start_graceTimer sample_starting = Ok tt w' /\
     status (mgr w') = StatusRunning /\
     statusMsg (mgr w') = "Running on port 1313"%string) /\
  (well_formed sample_starting /\
   exists w1 w2,
     Start_wait spare_doubling (Some "exit status 1"%string) sample_starting
     = Ok tt w1 /\
     status (mgr w1) = StatusError /\
     Start_graceTimer w1 = Ok tt w2 /\ mgr w2 = mgr w1).
Proof.
  assert (Hwf : well_formed sample_starting)
    by (apply wfb_sound; vm_compute; reflexivity).
  destruct (graceTimer_promotes_only_from_starting spare_doubling
              sample_starting)
    as ((w' & Hrun & Hpromote & _) & _ & Hwait).
  split.
  - split; [reflexivity|]. destruct (Hpromote eq_refl) as (Hst & Hmsg).
    exists w'. split; [exact Hrun|]. split; [exact Hst | exact Hmsg].
  - split; [exact Hwf|].
    destruct (Hwait (Some "exit status 1"%string) Hwf)
      as (w1 & w2 & H1 & H2 & H3 & H4).
    exists w1, w2. split; [exact H1|]. split; [exact H2|].
    split; [exact H3 | exact H4].
Defined.

Lemma contains_is_substring_witness :
  contains "Web Server is available at //localhost:1313/"
    "Web Server is available" = true /\
  contains "hello" "lol" = false /\
  ~ is_substring "lol" "hello".
Proof.
  split; [reflexivity|]. split; [reflexivity|].
  intros H.
  apply (proj1 (contains_is_substring "hello" "lol")) in H.
  discriminate H.
Defined.

(* ===================================================================== *)
(** * The further properties at sample inputs *)
(* ===================================================================== *)



Lemma Unsubscribe_closes_and_removes_witness :
  well_formed sample_subscribed /\
  0%nat ∈ subscribers (mgr sample_subscribed) /\
  exists w',
    Unsubscribe 0 sample_subscribed = Ok tt w' /\
    subscribers (mgr w') = [1%nat] /\
    chans w' !! 0%nat
      = Some {| ch_buf := replicate 100 zeroEntry; ch_cap := 100;
                ch_closed := true |}.
Proof.
  assert (Hwf : well_formed sample_subscribed)
    by (apply wfb_sound; vm_compute; reflexivity).
  assert (Hin : 0%nat ∈ subscribers (mgr sample_subscribed))
    by apply list_elem_of_here.
  split; [exact Hwf|]. split; [exact Hin|].
  destruct (Unsubscribe_closes_and_removes sample_subscribed 0%nat _
              Hwf Hin eq_refl)
    as (w' & Hrun & _ & Hsubs & Hc & _).
  exists w'. split; [exact Hrun|]. split; [exact Hsubs | exact Hc].
Defined.

Lemma Unsubscribe_is_idempotent_witness :
  well_formed sample_subscribed /\
  (7%nat ∉ subscribers (mgr sample_subscribed)) /\
  Unsubscribe 7 sample_subscribed = Ok tt sample_subscribed /\
  exists w',
    Unsubscribe 0 sample_subscribed = Ok tt w' /\
    Unsubscribe 0 w' = Ok tt w'.
Proof.
  assert (Hwf : well_formed sample_subscribed)
    by (apply wfb_sound; vm_compute; reflexivity).
  assert (Hout : 7%nat ∉ subscribers (mgr sample_subscribed)).
  { intros H. simpl in H.
    apply elem_of_cons in H as [H|H]; [discriminate|].
    apply elem_of_cons in H as [H|H]; [discriminate|].
    now apply elem_of_nil in H. }
  split; [exact Hwf|]. split; [exact Hout|].
  split.
  - exact (proj1 (Unsubscribe_is_idempotent sample_subscribed 7%nat Hwf)
             Hout).
  - exact (proj2 (Unsubscribe_is_idempotent sample_subscribed 0%nat Hwf)).
Defined.

Lemma Subscribe_Unsubscribe_round_trip_witness :
  well_formed sample_subscribed /\
  exists ch w1 w2,
    Subscribe sample_subscribed = Ok ch w1 /\
    Unsubscribe ch w1 = Ok tt w2 /\
    subscribers (mgr w2) = [0%nat; 1%nat].
Proof.
  assert (Hwf : well_formed sample_subscribed)
    by (apply wfb_sound; vm_compute; reflexivity).
  split; [exact Hwf|].
  destruct (Subscribe_Unsubscribe_round_trip sample_subscribed Hwf)
    as (ch & w1 & w2 & Hsub & Hun & Hm & _).
  exists ch, w1, w2. split; [exact Hsub|]. split; [exact Hun|].
  now rewrite Hm.
Defined.



Lemma exit_waiter_records_the_exit_witness :
  well_formed sample_starting /\
  exists w',
    Start_wait spare_doubling (Some "signal: killed"%string) sample_starting
    = Ok tt w' /\
    status (mgr w') = StatusError /\
    statusMsg (mgr w') = "signal: killed"%string /\
    cmd (mgr w') = Some (Cmd_set_Process (Some 42%nat) sample_cmd).
Proof.
  assert (Hwf : well_formed sample_starting)
    by (apply wfb_sound; vm_compute; reflexivity).
  split; [exact Hwf|].
  destruct (exit_waiter_records_the_exit spare_doubling sample_starting
              (Some "signal: killed"%string) Hwf)
    as (w' & Hrun & _ & Hst & Hmsg & _ & Hcmd & _).
  exists w'. split; [exact Hrun|]. split; [exact Hst|].
  split; [exact Hmsg | exact Hcmd].
Defined.

Lemma exit_waiter_wins_over_timer_witness :
  well_formed sample_starting /\
  exists w1 w2,
    Start_graceTimer sample_starting = Ok tt w1 /\
    status (mgr w1) = StatusRunning /\
    Start_wait spare_doubling (Some "exit status 1"%string) w1 = Ok tt w2 /\
    status (mgr w2) = StatusError.
Proof.
  assert (Hwf : well_formed sample_starting)
    by (apply wfb_sound; vm_compute; reflexivity).
  split; [exact Hwf|].
  destruct (exit_waiter_wins_over_timer spare_doubling sample_starting
              (Some "exit status 1"%string) Hwf)
    as (_ & w1 & w2 & Ht & Hwait & Hst & _).
  exists w1, w2. split; [exact Ht|].
  split; [injection Ht as <-; reflexivity|].
  split; [exact Hwait | exact Hst].
Defined.

Lemma streamLogs_logs_every_line_in_order_witness :
  well_formed sample_starting /\
  exists v w',
    log_view sample_starting = Some v /\
    streamLogs spare_doubling ["hugo v0.120"; "Built in 12 ms"]%string
      "stderr" sample_starting = Ok tt w' /\
    log_view w'
      = Some (v ++ [{| Time := 0; Message := "hugo v0.120";
                       Type_ := "stderr" |};
                    {| Time := 0; Message := "Built in 12 ms";
                       Type_ := "stderr" |}]).
Proof.
  assert (Hwf : well_formed sample_starting)
    by (apply wfb_sound; vm_compute; reflexivity).
  split; [exact Hwf|].
  destruct (streamLogs_logs_every_line_in_order spare_doubling
              sample_starting _ ["hugo v0.120"; "Built in 12 ms"]%string
              "stderr" Hwf eq_refl)
    as (w' & Hrun & _ & Hv & _); [discriminate|].
  eexists. exists w'. split; [reflexivity|]. split; [exact Hrun|].
  rewrite Hv. reflexivity.
Defined.

Lemma streamLogs_sets_running_only_on_ready_line_witness :
  well_formed sample_starting /\
  exists w',
    streamLogs spare_doubling
      ["Web Server is available at http://localhost:1313/"%string]
      "stdout" sample_starting = Ok tt w' /\
    status (mgr w') = StatusRunning /\
    statusMsg (mgr w') = "Running on port 1313"%string.
Proof.
  assert (Hwf : well_formed sample_starting)
    by (apply wfb_sound; vm_compute; reflexivity).
  split; [exact Hwf|].
  destruct (streamLogs_sets_running_only_on_ready_line spare_doubling
              sample_starting
              ["Web Server is available at http://localhost:1313/"%string]
              "stdout" Hwf)
    as (w' & Hrun & Hready & _).
  destruct (Hready eq_refl) as (Hst & Hmsg).
  { exists "Web Server is available at http://localhost:1313/"%string.
    split; [apply list_elem_of_here|]. left.
    exists ""%string, " at http://localhost:1313/"%string. reflexivity. }
  exists w'. split; [exact Hrun|]. split; [exact Hst | exact Hmsg].
Defined.

Lemma containsAt_agrees_with_contains_witness :
  len "ab" < len "abc" /\
  containsAt "ab" "abc" = false /\
  containsAt "hello" "llo" = contains "hello" "llo".
Proof.
  split; [reflexivity|]. split.
  - apply (proj1 (proj2 (containsAt_agrees_with_contains "ab" "abc"))).
    reflexivity.
  - exact (proj1 (containsAt_agrees_with_contains "hello" "llo")).
Defined.


Lemma addLog_then_GetLogs_returns_the_entry_witness :
  well_formed sample_world /\ 0 < maxLogs (mgr sample_world) /\
  exists w1 r w2,
    addLog spare_doubling "Starting Hugo server..." "system" sample_world
    = Ok tt w1 /\
    GetLogs 1 w1 = Ok r w2 /\
    slice_view (arrays w2) r
      = Some [{| Time := 0; Message := "Starting Hugo server...";
                 Type_ := "system" |}].
Proof.
  assert (Hwf : well_formed sample_world)
    by (apply wfb_sound; vm_compute; reflexivity).
  assert (Hmax : 0 < maxLogs (mgr sample_world)) by reflexivity.
  split; [exact Hwf|]. split; [exact Hmax|].
  exact (addLog_then_GetLogs_returns_the_entry spare_doubling sample_world
           "Starting Hugo server..." "system" Hwf Hmax).
Defined.

Lemma validateTemplates_accepts_exactly_valid_witness :
  Forall template_ok sample_templates /\
  validateTemplates sample_templates = None /\
  validateTemplates (rev sample_templates) = None /\
  validateTemplates
    [("post"%string,
      [("count"%string, {| TemplateField_Type := "int";
                           TemplateField_Default := "" |})])]
  = Some ("template 'post': field 'count': invalid type 'int', "
          +:+ "must be one of: text, textarea, number, bool, date").
Proof.
  assert (Hok : Forall template_ok sample_templates).
  { repeat constructor; simpl; try discriminate;
      repeat first [ apply list_elem_of_here | apply list_elem_of_further ]. }
  assert (Hnone : validateTemplates sample_templates = None).
  { apply (proj1 (validateTemplates_accepts_exactly_valid sample_templates
                    (rev sample_templates))).
    exact Hok. }
  split; [exact Hok|]. split; [exact Hnone|]. split; [|reflexivity].
  apply (proj2 (proj2 (validateTemplates_accepts_exactly_valid
                         sample_templates (rev sample_templates)))).
  - apply perm_swap.
  - exact Hnone.
Defined.
